(** * Pool and arena allocators: a shallow embedding and its properties

    The development embeds the two allocators of the repository:

    - [MemoryPool<T>] (Fast_allocator_than_new_and_delete.cpp): a fixed-size
      block pool whose free list is threaded through the unused blocks;
    - [Arena] and [MemoryArena] (the arena notes): bump allocators, the second
      one with alignment.

    Target: LP64, little endian.  [size_t] and pointers are 64-bit unsigned
    integers, represented in [Z] with the wrap-around written out.  Memory is
    flat and byte addressed; an object of type [FreeBlock] is one pointer,
    stored in [sizeof_ptr] consecutive bytes.  A store through a pointer
    writes those bytes wherever the pointer points: what C++ leaves undefined
    (a write past the end of a buffer, overlapping [FreeBlock] objects) does
    here what the machine does.

    The address returned by [new] is a parameter of each constructor.  The
    theorems assume of it what the allocator of the target guarantees: it is
    not null, and the block it designates lies in the address space (for the
    arenas: in its lower half, where user-space blocks live). *)

From Stdlib Require Import ZArith List Lia Bool Finite.
Import ListNotations.
Local Open Scope Z_scope.

(** ** Results of calls that may throw *)

Inductive exn : Type := bad_alloc.

Inductive outcome (A : Type) : Type :=
| Ok (a : A)
| Throw (e : exn).
Arguments Ok {A} a.
Arguments Throw {A} e.

(** ** [size_t] arithmetic *)

Module SizeT.

Definition bits : Z := 64.
Definition modulus : Z := 2 ^ bits.
Definition SIZE_MAX : Z := modulus - 1.
Definition PTRDIFF_MAX : Z := 2 ^ (bits - 1) - 1.

(** Reduction of a mathematical integer to its [size_t] value. *)
Definition wrap (x : Z) : Z := x mod modulus.

Definition add (x y : Z) : Z := wrap (x + y).
Definition sub (x y : Z) : Z := wrap (x - y).
Definition mul (x y : Z) : Z := wrap (x * y).
(** [~x] on a 64-bit operand. *)
Definition bnot (x : Z) : Z := wrap (Z.lnot x).
(** [x & y]. *)
Definition band (x y : Z) : Z := Z.land x y.

Definition in_range (x : Z) : Prop := 0 <= x < modulus.

End SizeT.

(** ** Flat byte-addressed memory *)

Module Mem.

Definition memory : Type := Z -> Z.

Definition sizeof_ptr : Z := 8.
Definition ptr_bytes : nat := 8.

(** A memory with every byte zero, for concrete runs. *)
Definition zeroed : memory := fun _ => 0.

Definition write (m : memory) (a b : Z) : memory :=
  fun x => if x =? a then b else m x.

Fixpoint store_bytes (m : memory) (a : Z) (bs : list Z) : memory :=
  match bs with
  | [] => m
  | b :: bs' => store_bytes (write m a b) (a + 1) bs'
  end.

Fixpoint load_bytes (m : memory) (a : Z) (k : nat) : list Z :=
  match k with
  | O => []
  | S k' => m a :: load_bytes m (a + 1) k'
  end.

(** Little-endian byte image of an integer, [k] bytes long. *)
Fixpoint encode_le (k : nat) (v : Z) : list Z :=
  match k with
  | O => []
  | S k' => v mod 256 :: encode_le k' (v / 256)
  end.

Fixpoint decode_le (bs : list Z) : Z :=
  match bs with
  | [] => 0
  | b :: bs' => b + 256 * decode_le bs'
  end.

(** [*(FreeBlock** )a = v] and [*(FreeBlock** )a]. *)
Definition store_ptr (m : memory) (a v : Z) : memory :=
  store_bytes m a (encode_le ptr_bytes v).

Definition load_ptr (m : memory) (a : Z) : Z :=
  decode_le (load_bytes m a ptr_bytes).

End Mem.

(** ** MemoryPool<T> *)

Module MemoryPool.
Import Mem.

Definition nullptr : Z := 0.

Record t : Type := mk {
  m_Pool : Z;
  m_FreeList : Z;
  m_BlockCount : Z
}.

Definition set_FreeList (p : t) (head : Z) : t :=
  {| m_Pool := m_Pool p; m_FreeList := head; m_BlockCount := m_BlockCount p |}.

Section WithElementType.

(** [sizeof(T)] of the element type the pool is instantiated at. *)
Variable sizeof_T : Z.

(** Address of slot [i] as the source computes it, [m_Pool + i * sizeof(T)],
    and as the mathematical integer it stands for. *)
Definition slot (pool : Z) (i : Z) : Z :=
  SizeT.add pool (SizeT.mul i sizeof_T).

Definition block_at (pool : Z) (i : Z) : Z := pool + i * sizeof_T.

(** [for (size_t i = 1; i < m_BlockCount; ++i)
      { block->next = (FreeBlock* )(m_Pool + i * sizeof(T)); block = block->next; }]
    from index [i] with the cursor at [block]; [fuel] bounds the number of
    iterations. *)
Fixpoint link (pool block_count : Z) (fuel : nat) (i : Z) (block : Z)
    (m : memory) : Z * memory :=
  match fuel with
  | O => (block, m)
  | S fuel' =>
      if i <? block_count then
        let m' := store_ptr m block (slot pool i) in
        link pool block_count fuel' (SizeT.add i 1) (load_ptr m' block) m'
      else (block, m)
  end.

(** The constructor.  [new_chars] is the address that
    [new char[sizeof(T) * block_count]] returned; [m] is the memory at that
    moment (the new block is uninitialised, so [m] is arbitrary there).  The
    loop runs fewer than [block_count] times. *)
Definition ctor (new_chars : Z) (block_count : Z) (m : memory) : t * memory :=
  let pool := new_chars in
  let head := pool in
  let '(block, m1) := link pool block_count (Z.to_nat block_count) 1 head m in
  ({| m_Pool := pool; m_FreeList := head; m_BlockCount := block_count |},
   store_ptr m1 block nullptr).

(** The [i]-th node of a free list that threads [n] slots in slot order
    (none from [n] on), the successor it records for slot [j], and the
    memories that hold such a list. *)
Definition head_at (pool : Z) (n i : Z) : Z :=
  if i <? n then block_at pool i else nullptr.

Definition next_of (pool : Z) (n j : Z) : Z := head_at pool n (j + 1).

Definition threaded (pool : Z) (n : Z) (m : memory) : Prop :=
  forall j, 0 <= j < n -> load_ptr m (block_at pool j) = next_of pool n j.

End WithElementType.

Definition Allocate (p : t) (m : memory) : outcome Z * t * memory :=
  if m_FreeList p =? nullptr then (Throw bad_alloc, p, m)
  else
    let block := m_FreeList p in
    (Ok block, set_FreeList p (load_ptr m (m_FreeList p)), m).

Definition Deallocate (p : t) (ptr : Z) (m : memory) : t * memory :=
  let block := ptr in
  let m' := store_ptr m block (m_FreeList p) in
  (set_FreeList p block, m').

(** The implicitly-declared copy constructor: the class declares no copy or
    move operation and deletes none, so a copy is the member-wise copy of
    the three fields; the heap is not touched. *)
Definition copy (p : t) : t :=
  {| m_Pool := m_Pool p; m_FreeList := m_FreeList p;
     m_BlockCount := m_BlockCount p |}.

(** [k] calls of [Allocate] in a row; the outcomes in call order. *)
Fixpoint Allocate_n (k : nat) (p : t) (m : memory)
  : list (outcome Z) * t * memory :=
  match k with
  | O => ([], p, m)
  | S k' =>
      let '(r, p1, m1) := Allocate p m in
      let '(rs, p2, m2) := Allocate_n k' p1 m1 in
      (r :: rs, p2, m2)
  end.

(** The free list as a list of block addresses, followed from [head] for at
    most [fuel] nodes. *)
Fixpoint free_chain (fuel : nat) (m : memory) (head : Z) : list Z :=
  match fuel with
  | O => []
  | S fuel' =>
      if head =? nullptr then []
      else head :: free_chain fuel' m (load_ptr m head)
  end.

End MemoryPool.

(** ** Arena: the plain bump allocator *)

Module Arena.

Record t : Type := mk {
  memory : Z;
  capacity : Z;
  offset : Z
}.

(** [Arena(size)]; [new_chars] is the address returned by [new char[size]]. *)
Definition ctor (new_chars : Z) (size : Z) : t :=
  {| memory := new_chars; capacity := size; offset := 0 |}.

Definition allocate (a : t) (size : Z) : outcome Z * t :=
  if capacity a <? SizeT.add (offset a) size then (Throw bad_alloc, a)
  else
    let ptr := SizeT.add (memory a) (offset a) in
    (Ok ptr,
     {| memory := memory a; capacity := capacity a;
        offset := SizeT.add (offset a) size |}).

Definition reset (a : t) : t :=
  {| memory := memory a; capacity := capacity a; offset := 0 |}.

End Arena.

(** ** MemoryArena: the bump allocator with alignment *)

Module MemoryArena.

Record t : Type := mk {
  buffer : Z;
  capacity : Z;
  offset : Z
}.

(** [alignof(std::max_align_t)] on the target. *)
Definition default_alignment : Z := 16.

(** [MemoryArena(size)]; [new_block] is the address returned by
    [::operator new(size)]. *)
Definition ctor (new_block : Z) (size : Z) : t :=
  {| buffer := new_block; capacity := size; offset := 0 |}.

(** The three locals of [allocate], each as the source computes it. *)
Definition current (a : t) : Z := SizeT.add (buffer a) (offset a).

Definition aligned (a : t) (alignment : Z) : Z :=
  SizeT.band (SizeT.sub (SizeT.add (current a) alignment) 1)
             (SizeT.bnot (SizeT.sub alignment 1)).

Definition adjustment (a : t) (alignment : Z) : Z :=
  SizeT.sub (SizeT.sub (aligned a alignment) (buffer a)) (offset a).

Definition allocate (a : t) (size alignment : Z) : outcome Z * t :=
  let adj := adjustment a alignment in
  if capacity a <? SizeT.add (SizeT.add (offset a) adj) size
  then (Throw bad_alloc, a)
  else
    let ptr := SizeT.add (SizeT.add (buffer a) (offset a)) adj in
    (Ok ptr,
     {| buffer := buffer a; capacity := capacity a;
        offset := SizeT.add (offset a) (SizeT.add adj size) |}).

Definition reset (a : t) : t :=
  {| buffer := buffer a; capacity := capacity a; offset := 0 |}.

(** Client calls, and the state they lead to.  A call that throws leaves the
    object as [allocate] returned it. *)
Inductive call : Type :=
| call_allocate (size alignment : Z)
| call_reset.

Definition step (a : t) (c : call) : t :=
  match c with
  | call_allocate size alignment => snd (allocate a size alignment)
  | call_reset => reset a
  end.

Definition run (a : t) (cs : list call) : t := fold_left step cs a.

(** States reachable from construction.  The block handed out by
    [operator new] is non-null and, as every user-space block of the target,
    lies in the lower half of the address space. *)
Definition user_block (addr len : Z) : Prop :=
  0 < addr /\ 0 <= len /\ addr + len <= SizeT.PTRDIFF_MAX + 1.

Inductive reachable : t -> Prop :=
| reach_ctor addr size :
    user_block addr size -> reachable (ctor addr size)
| reach_step a c :
    reachable a -> reachable (step a c).

(** The successful calls of a run, in order: the returned address, the
    requested size and the padding that the call inserted. *)
Record grant : Type := mk_grant {
  g_ptr : Z;
  g_size : Z;
  g_padding : Z
}.

Fixpoint grants (a : t) (reqs : list (Z * Z)) : list grant :=
  match reqs with
  | [] => []
  | (size, alignment) :: reqs' =>
      match allocate a size alignment with
      | (Ok p, a') =>
          {| g_ptr := p; g_size := size;
             g_padding := adjustment a alignment |} :: grants a' reqs'
      | (Throw _, a') => grants a' reqs'
      end
  end.

(** Mathematical round-up of [x] to a multiple of [al]. *)
Definition round_up (x al : Z) : Z := al * ((x + al - 1) / al).

(** The state invariant: the block is the one [operator new] returned and the
    cursor is inside it. *)
Definition wf (a : t) : Prop :=
  user_block (buffer a) (capacity a) /\ 0 <= offset a <= capacity a.

(** Consecutive grants: addresses do not decrease, and a grant ends, padding
    of the next one included, no later than the next one starts. *)
Fixpoint chained (gs : list grant) : Prop :=
  match gs with
  | g1 :: ((g2 :: _) as rest) =>
      g_ptr g1 <= g_ptr g2 /\
      g_ptr g1 + g_size g1 + g_padding g2 <= g_ptr g2 /\
      chained rest
  | _ => True
  end.

(** The plain [Arena] with the same three fields. *)
Definition plain (a : t) : Arena.t :=
  {| Arena.memory := buffer a; Arena.capacity := capacity a;
     Arena.offset := offset a |}.

(** Requests within the documented domain: a power-of-two alignment and a
    size that an object can have. *)
Definition sane_request (r : Z * Z) : Prop :=
  0 <= fst r <= SizeT.PTRDIFF_MAX /\
  exists k, 0 <= k < 64 /\ snd r = 2 ^ k.

End MemoryArena.

(** ** Free lists as lists of blocks *)

Module FreeList.
Import Mem MemoryPool.

(** Two pointer-sized objects at [a] and [b] do not overlap. *)
Definition apart (a b : Z) : Prop :=
  a + sizeof_ptr <= b \/ b + sizeof_ptr <= a.

(** A non-null pointer value. *)
Definition block_ok (b : Z) : Prop := 0 < b < SizeT.modulus.

(** The free list that starts at [head] is exactly the blocks [l], in order,
    and ends with [nullptr]. *)
Fixpoint chain (m : memory) (head : Z) (l : list Z) : Prop :=
  match l with
  | [] => head = nullptr
  | b :: l' => head = b /\ b <> nullptr /\ chain m (load_ptr m b) l'
  end.

(** Every cell of the memory holds a byte. *)
Definition byte_memory (m : memory) : Prop := forall x, 0 <= m x < 256.

End FreeList.

(** ** AllocatorTester::TestMemoryPool

    The body that [Benchmark::measure] runs on the pool.  The elapsed time
    that [measure] returns is not modelled; a [bad_alloc] thrown by
    [Allocate] leaves the lambda and [measure] before anything is given
    back. *)

Module AllocatorTester.
Import Mem MemoryPool.

(** [for (size_t i = 0; i < m_BlockCount; i++) ptrs.push_back(pool.Allocate());]
    with [count] iterations left. *)
Fixpoint fill (count : nat) (ptrs : list Z) (pool : t) (m : memory)
  : outcome (list Z) * t * memory :=
  match count with
  | O => (Ok ptrs, pool, m)
  | S count' =>
      match Allocate pool m with
      | (Ok block, pool1, m1) => fill count' (ptrs ++ [block]) pool1 m1
      | (Throw e, pool1, m1) => (Throw e, pool1, m1)
      end
  end.

(** [for (auto p : ptrs) pool.Deallocate(p);] *)
Fixpoint drain (ptrs : list Z) (pool : t) (m : memory) : t * memory :=
  match ptrs with
  | [] => (pool, m)
  | p :: ptrs' =>
      let '(pool1, m1) := Deallocate pool p m in
      drain ptrs' pool1 m1
  end.

Definition TestMemoryPool (m_BlockCount : Z) (pool : t) (m : memory)
  : outcome unit * t * memory :=
  match fill (Z.to_nat m_BlockCount) [] pool m with
  | (Ok ptrs, pool1, m1) =>
      let '(pool2, m2) := drain ptrs pool1 m1 in
      (Ok tt, pool2, m2)
  | (Throw e, pool1, m1) => (Throw e, pool1, m1)
  end.

End AllocatorTester.

(** ** StackAllocator: markers on a MemoryArena *)

Module StackMarker.

Record t : Type := mk { offset : Z }.

End StackMarker.

Module StackAllocator.

Definition getMarker (a : MemoryArena.t) : StackMarker.t :=
  {| StackMarker.offset := MemoryArena.offset a |}.

Definition freeToMarker (a : MemoryArena.t) (marker : StackMarker.t)
  : MemoryArena.t :=
  {| MemoryArena.buffer := MemoryArena.buffer a;
     MemoryArena.capacity := MemoryArena.capacity a;
     MemoryArena.offset := StackMarker.offset marker |}.

End StackAllocator.

(** ** Runs of the plain Arena *)

Module ArenaRun.

Inductive call : Type :=
| plain_allocate_call (size : Z)
| plain_reset_call.

Definition step (a : Arena.t) (c : call) : Arena.t :=
  match c with
  | plain_allocate_call size => snd (Arena.allocate a size)
  | plain_reset_call => Arena.reset a
  end.

Definition run (a : Arena.t) (cs : list call) : Arena.t := fold_left step cs a.

(** The same call on a [MemoryArena], with alignment 1. *)
Definition lift (c : call) : MemoryArena.call :=
  match c with
  | plain_allocate_call size => MemoryArena.call_allocate size 1
  | plain_reset_call => MemoryArena.call_reset
  end.

(** A batch of requests, one [allocate] after the other. *)
Fixpoint serve (a : Arena.t) (sizes : list Z) : list (outcome Z) * Arena.t :=
  match sizes with
  | [] => ([], a)
  | size :: sizes' =>
      let '(r, a1) := Arena.allocate a size in
      let '(rs, a2) := serve a1 sizes' in
      (r :: rs, a2)
  end.

(** Back-to-back blocks of the given sizes, the first one at [addr]. *)
Fixpoint starts (addr : Z) (sizes : list Z) : list Z :=
  match sizes with
  | [] => []
  | size :: sizes' => addr :: starts (addr + size) sizes'
  end.

Definition total (sizes : list Z) : Z := fold_right Z.add 0 sizes.

(** The block is the one [new] returned and the cursor is inside it. *)
Definition sound (a : Arena.t) : Prop :=
  0 < Arena.memory a /\
  0 <= Arena.offset a <= Arena.capacity a /\
  Arena.memory a + Arena.capacity a <= SizeT.PTRDIFF_MAX + 1.

End ArenaRun.

(** ** The C arena of the notes

    [target_size_t], the type of [align_up]'s offset and result, is not
    declared in the notes; it is taken to be [size_t], the type of the local
    that receives the result. *)

Module CArena.

Definition NULL : Z := 0.

Record t : Type := mk {
  base : Z;
  size : Z;
  offset : Z
}.

(** [arena_init]; [malloc_result] is what [malloc(size)] returned. *)
Definition arena_init (malloc_result : Z) (size : Z) : t :=
  {| base := malloc_result; size := size; offset := 0 |}.

Definition align_up (offset alignment : Z) : Z :=
  let mask := SizeT.sub alignment 1 in
  SizeT.band (SizeT.add offset mask) (SizeT.bnot mask).

Definition arena_allocate (arena : t) (n alignment : Z) : Z * t :=
  let aligned_offset := align_up (offset arena) alignment in
  if size arena <? SizeT.add aligned_offset n then (NULL, arena)
  else
    let ptr := SizeT.add (base arena) aligned_offset in
    (ptr, {| base := base arena; size := size arena;
             offset := SizeT.add aligned_offset n |}).

Definition arena_reset (arena : t) : t :=
  {| base := base arena; size := size arena; offset := 0 |}.

(** [arena_destroy]: the fields after [free(arena->base)]. *)
Definition arena_destroy (arena : t) : t :=
  {| base := NULL; size := 0; offset := 0 |}.

(** A live arena: [malloc] succeeded, the block lies in the lower half of the
    address space and the cursor is inside it. *)
Definition live (a : t) : Prop :=
  0 < base a /\
  0 <= offset a <= size a /\
  base a + size a <= SizeT.PTRDIFF_MAX + 1.

(** The [MemoryArena] with the same block and cursor, and back. *)
Definition as_MemoryArena (a : t) : MemoryArena.t :=
  {| MemoryArena.buffer := base a; MemoryArena.capacity := size a;
     MemoryArena.offset := offset a |}.

Definition of_MemoryArena (a : MemoryArena.t) : t :=
  {| base := MemoryArena.buffer a; size := MemoryArena.capacity a;
     offset := MemoryArena.offset a |}.

End CArena.

(** * Properties *)

(** ** [size_t] arithmetic and alignment *)

Module SizeTFacts.
Import SizeT.

Lemma modulus_eq : modulus = 2 ^ 64.
Proof. reflexivity. Qed.

Lemma modulus_pos : 0 < modulus.
Proof. rewrite modulus_eq. lia. Qed.

Lemma PTRDIFF_MAX_eq : PTRDIFF_MAX = 2 ^ 63 - 1.
Proof. reflexivity. Qed.

Lemma wrap_range x : 0 <= wrap x < modulus.
Proof. apply Z.mod_pos_bound, modulus_pos. Qed.

Lemma wrap_small x : 0 <= x < modulus -> wrap x = x.
Proof. apply Z.mod_small. Qed.

Lemma wrap_add_l x y : wrap (wrap x + y) = wrap (x + y).
Proof. unfold wrap. apply Zplus_mod_idemp_l. Qed.

Lemma wrap_add_r x y : wrap (x + wrap y) = wrap (x + y).
Proof. unfold wrap. apply Zplus_mod_idemp_r. Qed.

Lemma wrap_sub_l x y : wrap (wrap x - y) = wrap (x - y).
Proof. unfold wrap. apply Zminus_mod_idemp_l. Qed.

Lemma pow2_pos k : 0 <= k -> 0 < 2 ^ k.
Proof. intros Hk. apply Z.pow_pos_nonneg; lia. Qed.

Lemma pow2_le_half k : 0 <= k < 64 -> 2 ^ k <= 2 ^ 63.
Proof. intros Hk. apply Z.pow_le_mono_r; lia. Qed.

Lemma pow2_divides_half k : 0 <= k < 64 -> (2 ^ 63) mod (2 ^ k) = 0.
Proof.
  intros Hk. replace 63 with ((63 - k) + k) by lia.
  rewrite Z.pow_add_r by lia. apply Z_mod_mult.
Qed.

(** Masking with [~(2^k - 1)] rounds down to a multiple of [2^k]. *)
Lemma band_bnot_mask x k :
  0 <= k < 64 -> 0 <= x < modulus ->
  band x (bnot (sub (2 ^ k) 1)) = 2 ^ k * (x / 2 ^ k).
Proof.
  intros Hk Hx. pose proof (pow2_pos k ltac:(lia)) as Hpos.
  pose proof (pow2_le_half k Hk) as Hle.
  unfold band, bnot, sub.
  rewrite (wrap_small (2 ^ k - 1)) by (rewrite modulus_eq; lia).
  unfold wrap. rewrite modulus_eq.
  rewrite <- Z.land_ones by lia.
  rewrite Z.land_assoc, (Z.land_comm x), <- Z.land_assoc.
  rewrite (Z.land_ones x) by lia.
  rewrite (Z.mod_small x) by (rewrite <- modulus_eq; exact Hx).
  rewrite Z.land_comm, <- Z.ldiff_land.
  replace (2 ^ k - 1) with (Z.ones k) by (rewrite Z.ones_equiv; lia).
  rewrite Z.ldiff_ones_r by lia.
  rewrite Z.shiftl_mul_pow2, Z.shiftr_div_pow2 by lia.
  ring.
Qed.

(** The same rule on unbounded integers. *)
Lemma land_lnot_mask x k :
  0 <= k -> Z.land x (Z.lnot (2 ^ k - 1)) = 2 ^ k * (x / 2 ^ k).
Proof.
  intros Hk. rewrite <- Z.ldiff_land.
  replace (2 ^ k - 1) with (Z.ones k) by (rewrite Z.ones_equiv; lia).
  rewrite Z.ldiff_ones_r by lia.
  rewrite Z.shiftl_mul_pow2, Z.shiftr_div_pow2 by lia.
  ring.
Qed.

End SizeTFacts.

(** ** Memory: stores and loads *)

Module MemFacts.
Import Mem.

Lemma write_same m a b : write m a b a = b.
Proof. unfold write. now rewrite Z.eqb_refl. Qed.

Lemma write_other m a b x : x <> a -> write m a b x = m x.
Proof.
  intros Hne. unfold write.
  destruct (Z.eqb_spec x a); [contradiction | reflexivity].
Qed.

Lemma length_encode_le k v : length (encode_le k v) = k.
Proof. revert v. induction k; intros v; simpl; [reflexivity | now rewrite IHk]. Qed.

Lemma decode_encode_le k v :
  decode_le (encode_le k v) = v mod 256 ^ Z.of_nat k.
Proof.
  revert v. induction k as [|k IH]; intros v.
  - simpl. now rewrite Z.mod_1_r.
  - cbn [encode_le decode_le]. rewrite IH.
    rewrite Nat2Z.inj_succ, Z.pow_succ_r by lia.
    rewrite Z.rem_mul_r by (try apply Z.pow_pos_nonneg; lia).
    reflexivity.
Qed.

(** A store leaves the bytes outside its range alone. *)
Lemma store_bytes_outside bs : forall m a x,
  x < a \/ a + Z.of_nat (length bs) <= x ->
  store_bytes m a bs x = m x.
Proof.
  induction bs as [|b bs IH]; intros m a x Hx; [reflexivity|].
  cbn [store_bytes]. cbn [length] in Hx. rewrite IH by lia.
  apply write_other. lia.
Qed.

Lemma load_bytes_ext k : forall m m' a,
  (forall x, a <= x < a + Z.of_nat k -> m x = m' x) ->
  load_bytes m a k = load_bytes m' a k.
Proof.
  induction k as [|k IH]; intros m m' a Hext; [reflexivity|].
  cbn [load_bytes]. f_equal.
  - apply Hext. lia.
  - apply IH. intros x Hx. apply Hext. lia.
Qed.

Lemma load_store_bytes bs : forall m a,
  load_bytes (store_bytes m a bs) a (length bs) = bs.
Proof.
  induction bs as [|b bs IH]; intros m a; [reflexivity|].
  cbn [store_bytes load_bytes length]. f_equal.
  - rewrite store_bytes_outside by lia. apply write_same.
  - apply IH.
Qed.

(** Reading back the pointer just stored. *)
Lemma load_store_ptr_same m a v :
  load_ptr (store_ptr m a v) a = SizeT.wrap v.
Proof.
  unfold load_ptr, store_ptr.
  rewrite <- (length_encode_le ptr_bytes v) at 2.
  rewrite load_store_bytes, decode_encode_le.
  reflexivity.
Qed.

(** A pointer store does not disturb a pointer that lies clear of it. *)
Lemma load_store_ptr_apart m a v a' :
  a' + sizeof_ptr <= a \/ a + sizeof_ptr <= a' ->
  load_ptr (store_ptr m a v) a' = load_ptr m a'.
Proof.
  intros Hapart. unfold load_ptr, store_ptr, sizeof_ptr in *.
  f_equal. apply load_bytes_ext. intros x Hx.
  apply store_bytes_outside. rewrite length_encode_le.
  unfold ptr_bytes in *. lia.
Qed.

End MemFacts.

(** ** MemoryPool: the free list built by the constructor *)

Module PoolFacts.
Import Mem MemFacts MemoryPool.
Import SizeTFacts.

Section Threading.

Variables (sizeof_T pool : Z).
Hypothesis Hsize : sizeof_ptr <= sizeof_T.
Hypothesis Hpool : 0 < pool.

Local Abbreviation slot := (MemoryPool.block_at sizeof_T pool).
Local Abbreviation head_at := (MemoryPool.head_at sizeof_T pool).
Local Abbreviation next_of := (MemoryPool.next_of sizeof_T pool).
Local Abbreviation threaded := (MemoryPool.threaded sizeof_T pool).

Lemma slot_succ i : slot (i + 1) = slot i + sizeof_T.
Proof. unfold MemoryPool.block_at. ring. Qed.

Lemma slot_mono i j : i <= j -> slot i <= slot j.
Proof. unfold MemoryPool.block_at, sizeof_ptr in *. nia. Qed.

Lemma slot_apart i j : i < j -> slot i + sizeof_ptr <= slot j.
Proof.
  intros Hij. pose proof (slot_mono (i + 1) j ltac:(lia)) as Hm.
  rewrite slot_succ in Hm. lia.
Qed.

Lemma slot_pos i : 0 <= i -> 0 < slot i.
Proof.
  intros Hi. pose proof (slot_mono 0 i Hi) as Hm.
  unfold MemoryPool.block_at in *. lia.
Qed.

(** Inside the storage the address arithmetic of the source does not wrap. *)
Lemma slot_no_wrap i :
  0 <= i -> slot i < SizeT.modulus ->
  MemoryPool.slot sizeof_T pool i = slot i.
Proof.
  intros Hi Htop. pose proof (slot_pos i Hi) as Hpos.
  unfold MemoryPool.slot, SizeT.add, SizeT.mul.
  rewrite wrap_add_r. apply wrap_small.
  unfold MemoryPool.block_at in *. lia.
Qed.

Lemma index_below_modulus n :
  0 <= n -> slot n < SizeT.modulus -> n < SizeT.modulus.
Proof.
  intros Hn Htop. unfold MemoryPool.block_at, sizeof_ptr in *. nia.
Qed.

(** What the threading loop leaves behind when it is entered at index [i]
    with the cursor on slot [i - 1]. *)
Lemma link_spec (n : Z) fuel : forall i m,
  1 <= i <= n ->
  n - i <= Z.of_nat fuel ->
  slot n < SizeT.modulus ->
  let r := link sizeof_T pool n fuel i (slot (i - 1)) m in
  fst r = slot (n - 1) /\
  (forall j, i - 1 <= j < n - 1 ->
             load_ptr (snd r) (slot j) = slot (j + 1)) /\
  (forall a, a + sizeof_ptr <= slot (i - 1) \/ slot (n - 1) <= a ->
             load_ptr (snd r) a = load_ptr m a).
Proof.
  assert (Hdone : forall i m, 1 <= i <= n -> n <= i ->
            fst (slot (i - 1), m) = slot (n - 1) /\
            (forall j, i - 1 <= j < n - 1 ->
                       load_ptr (snd (slot (i - 1), m)) (slot j) = slot (j + 1)) /\
            (forall a, a + sizeof_ptr <= slot (i - 1) \/ slot (n - 1) <= a ->
                       load_ptr (snd (slot (i - 1), m)) a = load_ptr m a)).
  { intros i m Hi Hge. replace i with n by lia. cbn [fst snd].
    split; [reflexivity|]. split; [intros; lia | intros; reflexivity]. }
  induction fuel as [|fuel IH]; intros i m Hi Hfuel Htop; cbn [link].
  - apply Hdone; [exact Hi | lia].
  - destruct (Z.ltb_spec i n) as [Hlt|Hge]; [|apply Hdone; [exact Hi | lia]].
    pose proof (index_below_modulus n ltac:(lia) Htop) as Hn.
    assert (Hslot : MemoryPool.slot sizeof_T pool i = slot i).
    { apply slot_no_wrap; [lia|].
      pose proof (slot_mono i n ltac:(lia)). lia. }
    assert (Hnext : SizeT.add i 1 = i + 1).
    { unfold SizeT.add. apply wrap_small. lia. }
    assert (Hload : SizeT.wrap (slot i) = slot i).
    { apply wrap_small. pose proof (slot_pos i ltac:(lia)).
      pose proof (slot_mono i n ltac:(lia)). lia. }
    cbv zeta. rewrite Hslot, Hnext, load_store_ptr_same, Hload.
    specialize (IH (i + 1) (store_ptr m (slot (i - 1)) (slot i))
                  ltac:(lia) ltac:(lia) Htop).
    replace (i + 1 - 1) with i in IH by lia.
    cbv zeta in IH. destruct IH as (Hblk & Hthen & Hkeep).
    split; [exact Hblk|]. split.
    + intros j Hj. destruct (Z.eq_dec j (i - 1)) as [->|Hne].
      * rewrite Hkeep by (left; apply slot_apart; lia).
        rewrite load_store_ptr_same.
        replace (i - 1 + 1) with i by lia. exact Hload.
      * apply Hthen. lia.
    + intros a Ha. rewrite Hkeep.
      * apply load_store_ptr_apart.
        destruct Ha as [Ha|Ha]; [left; lia|right].
        pose proof (slot_apart (i - 1) (n - 1) ltac:(lia)). lia.
      * destruct Ha as [Ha|Ha]; [left|right; exact Ha].
        pose proof (slot_apart (i - 1) i ltac:(lia)).
        unfold sizeof_ptr in *. lia.
Qed.

(** The constructor threads slot 0, slot 1, ..., slot [n - 1], then none. *)
Lemma ctor_threaded (n : nat) (m0 : memory) :
  (1 <= n)%nat ->
  pool + Z.of_nat n * sizeof_T < SizeT.modulus ->
  let r := ctor sizeof_T pool (Z.of_nat n) m0 in
  fst r = {| m_Pool := pool; m_FreeList := pool;
             m_BlockCount := Z.of_nat n |} /\
  threaded (Z.of_nat n) (snd r).
Proof.
  intros Hn Hfit. unfold ctor.
  assert (Hslot0 : pool = slot (1 - 1))
    by (unfold MemoryPool.block_at; ring).
  pose proof (link_spec (Z.of_nat n) (Z.to_nat (Z.of_nat n)) 1 m0
                ltac:(lia) ltac:(lia) Hfit) as Hl.
  cbv zeta in Hl. rewrite <- Hslot0 in Hl.
  destruct (link sizeof_T pool (Z.of_nat n) (Z.to_nat (Z.of_nat n)) 1 pool m0)
    as [block m1].
  cbn [fst snd] in *. destruct Hl as (-> & Hthen & _).
  split; [reflexivity|].
  intros j Hj. unfold MemoryPool.next_of, MemoryPool.head_at.
  destruct (Z.ltb_spec (j + 1) (Z.of_nat n)) as [Hlt|Hge].
  - rewrite load_store_ptr_apart by (left; apply slot_apart; lia).
    apply Hthen. lia.
  - replace j with (Z.of_nat n - 1) by lia.
    rewrite load_store_ptr_same. reflexivity.
Qed.

(** Allocation from a threaded free list walks the slots upwards. *)
Lemma Allocate_n_threaded (n : nat) (m : memory) :
  threaded (Z.of_nat n) m ->
  forall (k i : nat) (p : t),
    (i + k <= n)%nat ->
    m_FreeList p = head_at (Z.of_nat n) (Z.of_nat i) ->
    Allocate_n k p m =
      (map (fun j => Ok (slot (Z.of_nat j))) (seq i k),
       set_FreeList p (head_at (Z.of_nat n) (Z.of_nat (i + k))), m).
Proof.
  intros Hthr. induction k as [|k IH]; intros i p Hik Hhead.
  - cbn [Allocate_n seq map]. rewrite Nat.add_0_r, <- Hhead.
    destruct p; reflexivity.
  - cbn [Allocate_n seq map]. unfold Allocate.
    assert (Hslot : m_FreeList p = slot (Z.of_nat i)).
    { rewrite Hhead. unfold MemoryPool.head_at.
      destruct (Z.ltb_spec (Z.of_nat i) (Z.of_nat n)); [reflexivity | lia]. }
    pose proof (slot_pos (Z.of_nat i) ltac:(lia)) as Hpos.
    destruct (Z.eqb_spec (m_FreeList p) nullptr) as [Hnull|_];
      [unfold nullptr in Hnull; lia|].
    rewrite Hslot, (Hthr (Z.of_nat i)) by lia.
    rewrite (IH (S i)).
    + cbn [set_FreeList m_Pool m_BlockCount].
      replace (S i + k)%nat with (i + S k)%nat by lia. reflexivity.
    + lia.
    + cbn [set_FreeList m_FreeList]. unfold MemoryPool.next_of.
      f_equal. lia.
Qed.

Lemma free_chain_threaded (n : nat) (m : memory) :
  threaded (Z.of_nat n) m ->
  forall (fuel k i : nat),
    (i + k = n)%nat -> (k < fuel)%nat ->
    free_chain fuel m (head_at (Z.of_nat n) (Z.of_nat i)) =
      map (fun j => slot (Z.of_nat j)) (seq i k).
Proof.
  intros Hthr. induction fuel as [|fuel IH]; intros k i Hik Hfuel; [lia|].
  cbn [free_chain].
  destruct (Z.ltb (Z.of_nat i) (Z.of_nat n)) eqn:Hcmp.
  - apply Z.ltb_lt in Hcmp.
    assert (Hh : head_at (Z.of_nat n) (Z.of_nat i) = slot (Z.of_nat i)).
    { unfold MemoryPool.head_at.
      destruct (Z.ltb_spec (Z.of_nat i) (Z.of_nat n)); [reflexivity | lia]. }
    rewrite Hh.
    pose proof (slot_pos (Z.of_nat i) ltac:(lia)) as Hpos.
    destruct (Z.eqb_spec (slot (Z.of_nat i)) nullptr) as [Hnull|_];
      [unfold nullptr in Hnull; lia|].
    destruct k as [|k]; [lia|]. cbn [seq map]. f_equal.
    rewrite (Hthr (Z.of_nat i)) by lia. unfold MemoryPool.next_of.
    replace (Z.of_nat i + 1) with (Z.of_nat (S i)) by lia.
    apply IH; lia.
  - apply Z.ltb_ge in Hcmp. unfold MemoryPool.head_at.
    destruct (Z.ltb_spec (Z.of_nat i) (Z.of_nat n)); [lia|].
    replace k with 0%nat by lia. reflexivity.
Qed.

Lemma slot_injective :
  Finite.Injective (fun j : nat => slot (Z.of_nat j)).
Proof.
  intros i j Heq.
  destruct (Nat.lt_trichotomy i j) as [Hlt|[Heq'|Hgt]]; [|exact Heq'|].
  - pose proof (slot_apart (Z.of_nat i) (Z.of_nat j) ltac:(lia)).
    unfold sizeof_ptr in *. lia.
  - pose proof (slot_apart (Z.of_nat j) (Z.of_nat i) ltac:(lia)).
    unfold sizeof_ptr in *. lia.
Qed.

Lemma slots_in_storage (n : nat) :
  Forall (fun a => pool <= a < pool + Z.of_nat n * sizeof_T)
         (map (fun j => slot (Z.of_nat j)) (seq 0 n)).
Proof.
  apply Forall_forall. intros a Ha.
  apply in_map_iff in Ha. destruct Ha as (j & <- & Hj).
  apply in_seq in Hj.
  pose proof (slot_mono 0 (Z.of_nat j) ltac:(lia)) as Hlo.
  pose proof (slot_mono (Z.of_nat j + 1) (Z.of_nat n) ltac:(lia)) as Hhi.
  rewrite slot_succ in Hhi.
  unfold MemoryPool.block_at, sizeof_ptr in *. lia.
Qed.

(** A pool of at least one block: [n] calls succeed, in slot order, and the
    next one throws. *)
Lemma exhaustion_nonempty (n : nat) (m0 : memory) :
  (1 <= n)%nat ->
  pool + Z.of_nat n * sizeof_T < SizeT.modulus ->
  let r := ctor sizeof_T pool (Z.of_nat n) m0 in
  let '(rs, p', m') := Allocate_n n (fst r) (snd r) in
  rs = map (fun j => Ok (slot (Z.of_nat j))) (seq 0 n) /\
  fst (fst (Allocate p' m')) = Throw bad_alloc.
Proof.
  intros Hn Hfit.
  destruct (ctor_threaded n m0 Hn Hfit) as (Hp & Hthr). cbv zeta.
  rewrite (Allocate_n_threaded n _ Hthr n 0 (fst _)).
  - split; [reflexivity|]. unfold Allocate.
    cbn [set_FreeList m_FreeList Nat.add]. unfold MemoryPool.head_at.
    rewrite Z.ltb_irrefl. reflexivity.
  - lia.
  - rewrite Hp. cbn [m_FreeList]. unfold MemoryPool.head_at.
    destruct (Z.ltb_spec (Z.of_nat 0) (Z.of_nat n)); [|lia].
    unfold MemoryPool.block_at. cbn. ring.
Qed.

End Threading.

(** C1 (the code departs from it).  The claim asks, for every block count
    [n], that exactly [n] calls of [Allocate] succeed and the next one fails.
    With [block_count = 0] the constructor still makes [m_Pool] the head of
    the free list (and writes the terminator into it), so the very first
    [Allocate] returns [m_Pool] instead of throwing [bad_alloc]. *)
Theorem empty_pool_first_Allocate_succeeds (sizeof_T pool : Z) (m0 : memory) :
  pool <> nullptr ->
  let fresh := ctor sizeof_T pool 0 m0 in
  fst (fst (Allocate (fst fresh) (snd fresh))) = Ok pool.
Proof.
  intros Hnonnull. cbv zeta. unfold ctor. cbn [Z.sub Z.to_nat Z.opp Z.add link].
  cbn [fst snd]. unfold Allocate. cbn [m_FreeList].
  destruct (Z.eqb_spec pool nullptr); [contradiction | reflexivity].
Qed.

Lemma empty_pool_first_Allocate_succeeds_witness :
  4096 <> nullptr /\
  fst (fst (Allocate (fst (ctor 64 4096 0 zeroed))
                     (snd (ctor 64 4096 0 zeroed)))) = Ok 4096.
Proof.
  split.
  - unfold nullptr. lia.
  - apply (empty_pool_first_Allocate_succeeds 64 4096 zeroed).
    unfold nullptr. lia.
Defined.

(** C3.  Whatever the state of the pool, once a block [ptr] that [Allocate]
    has handed out is given back with [Deallocate], the next [Allocate]
    succeeds and returns exactly [ptr]; the head of the free list is then the
    one the pool had before the block was given back. *)
Theorem Deallocate_then_Allocate_returns_block
    (p0 : t) (m0 : memory) (ptr : Z) (p1 : t) (m1 : memory)
    (p : t) (m : memory) :
  Allocate p0 m0 = (Ok ptr, p1, m1) ->
  let freed := Deallocate p ptr m in
  Allocate (fst freed) (snd freed) =
    (Ok ptr, set_FreeList p (SizeT.wrap (m_FreeList p)), snd freed).
Proof.
  intros Hgot. assert (Hnonnull : ptr <> nullptr).
  { unfold Allocate in Hgot.
    destruct (Z.eqb_spec (m_FreeList p0) nullptr) as [|Hne];
      [discriminate|]. now inversion Hgot; subst. }
  cbv zeta. unfold Deallocate. cbn [fst snd]. unfold Allocate.
  cbn [set_FreeList m_FreeList m_Pool m_BlockCount].
  destruct (Z.eqb_spec ptr nullptr); [contradiction|].
  now rewrite load_store_ptr_same.
Qed.

Lemma Deallocate_then_Allocate_returns_block_witness :
  let p0 := {| m_Pool := 4096; m_FreeList := 4096; m_BlockCount := 2 |} in
  let p1 := set_FreeList p0 0 in
  Allocate p0 zeroed = (Ok 4096, p1, zeroed) /\
  Allocate (fst (Deallocate p1 4096 zeroed)) (snd (Deallocate p1 4096 zeroed))
    = (Ok 4096, set_FreeList p1 (SizeT.wrap (m_FreeList p1)),
       snd (Deallocate p1 4096 zeroed)).
Proof.
  cbv zeta. split.
  - reflexivity.
  - apply (Deallocate_then_Allocate_returns_block
             {| m_Pool := 4096; m_FreeList := 4096; m_BlockCount := 2 |}
             zeroed 4096
             {| m_Pool := 4096; m_FreeList := 0; m_BlockCount := 2 |} zeroed).
    reflexivity.
Defined.

(** C6 fails as stated: it puts no condition on the element type.  With a
    4-byte element the pointer stored in slot 1 overwrites the upper half of
    the one stored in slot 0, and the second of three allocations returns an
    address far outside the storage. *)
Lemma small_element_breaks_allocation_order :
  let fresh := ctor 4 4096 3 zeroed in
  fst (fst (Allocate_n 3 (fst fresh) (snd fresh))) =
    [Ok 4096; Ok (4100 + 4104 * 2 ^ 32); Throw bad_alloc] /\
  fst (fst (Allocate_n 3 (fst fresh) (snd fresh))) <>
    map (fun i => Ok (4096 + Z.of_nat i * 4)) (seq 0 3).
Proof.
  cbv zeta. split.
  - vm_compute. reflexivity.
  - vm_compute. discriminate.
Qed.

(** C6, amended: for an element type at least as large as a pointer.  On a
    freshly constructed pool of [n] blocks the free list is slot 0, slot 1,
    ..., slot [n - 1], then none (for [n >= 1]); the [i]-th of [n]
    consecutive calls of [Allocate] returns [storage + i * sizeof(T)]; these
    [n] addresses are pairwise distinct and lie in
    [[storage, storage + n * sizeof(T))]. *)
Theorem fresh_pool_allocation_order
    (sizeof_T pool : Z) (n : nat) (m0 : memory) :
  sizeof_ptr <= sizeof_T ->
  0 < pool ->
  pool + Z.of_nat n * sizeof_T < SizeT.modulus ->
  let fresh := ctor sizeof_T pool (Z.of_nat n) m0 in
  let addrs := map (fun i => pool + Z.of_nat i * sizeof_T) (seq 0 n) in
  ((1 <= n)%nat ->
   free_chain (S n) (snd fresh) (m_FreeList (fst fresh)) = addrs) /\
  fst (fst (Allocate_n n (fst fresh) (snd fresh))) = map Ok addrs /\
  NoDup addrs /\
  Forall (fun a => pool <= a < pool + Z.of_nat n * sizeof_T) addrs.
Proof.
  intros Hsize Hpool Hfit. cbv zeta.
  assert (Hhead0 : forall k : nat, (1 <= k)%nat ->
            pool = head_at sizeof_T pool (Z.of_nat k) (Z.of_nat 0)).
  { intros k Hk. unfold head_at.
    destruct (Z.ltb_spec (Z.of_nat 0) (Z.of_nat k)); [|lia].
    unfold block_at. cbn. ring. }
  split; [|split; [|split]].
  - intros Hn.
    destruct (ctor_threaded sizeof_T pool Hsize Hpool n m0 Hn Hfit)
      as (Hp & Hthr).
    rewrite Hp. cbn [m_FreeList].
    pose proof (free_chain_threaded sizeof_T pool Hsize Hpool n _ Hthr
                  (S n) n 0 ltac:(lia) ltac:(lia)) as Hchain.
    rewrite <- (Hhead0 n Hn) in Hchain. exact Hchain.
  - destruct n as [|n']; [reflexivity|].
    destruct (ctor_threaded sizeof_T pool Hsize Hpool (S n') m0
                ltac:(lia) Hfit) as (Hp & Hthr).
    rewrite (Allocate_n_threaded sizeof_T pool Hsize Hpool (S n') _ Hthr
               (S n') 0).
    + cbn [fst]. now rewrite map_map.
    + lia.
    + rewrite Hp. cbn [m_FreeList]. apply Hhead0. lia.
  - apply Injective_map_NoDup; [|apply seq_NoDup].
    apply (slot_injective sizeof_T pool Hsize).
  - apply (slots_in_storage sizeof_T pool Hsize).
Qed.

Lemma fresh_pool_allocation_order_witness :
  sizeof_ptr <= 64 /\ 0 < 4096 /\ 4096 + Z.of_nat 3 * 64 < SizeT.modulus /\
  fst (fst (Allocate_n 3 (fst (ctor 64 4096 (Z.of_nat 3) zeroed))
                         (snd (ctor 64 4096 (Z.of_nat 3) zeroed)))) =
    map Ok (map (fun i => 4096 + Z.of_nat i * 64) (seq 0 3)).
Proof.
  assert (H1 : sizeof_ptr <= 64) by (unfold sizeof_ptr; lia).
  assert (H2 : 0 < 4096) by lia.
  assert (H3 : 4096 + Z.of_nat 3 * 64 < SizeT.modulus)
    by (vm_compute; reflexivity).
  split; [exact H1 | split; [exact H2 | split; [exact H3 |]]].
  exact (proj1 (proj2 (fresh_pool_allocation_order 64 4096 3 zeroed H1 H2 H3))).
Defined.

(** C9 (the code departs from it).  [MemoryPool] declares no copy or move
    operation and deletes none, so the compiler-generated copy is available:
    the copy holds the same [m_Pool] and the same free-list head, and both
    objects hand out the same block. *)
Theorem copied_pool_hands_out_same_block :
  let fresh := ctor 64 4096 2 zeroed in
  let p := fst fresh in
  let q := copy p in
  let first := Allocate p (snd fresh) in
  let second := Allocate q (snd first) in
  m_Pool q = m_Pool p /\
  fst (fst first) = Ok 4096 /\
  fst (fst second) = Ok 4096.
Proof. cbv zeta. repeat split. Qed.

End PoolFacts.

(** ** Rounding up *)

Module RoundUp.
Import MemoryArena.

Section Multiple.

Variables (x al : Z).
Hypothesis Hal : 0 < al.

Lemma round_up_multiple : round_up x al mod al = 0.
Proof. unfold round_up. rewrite Z.mul_comm. apply Z_mod_mult. Qed.

Lemma round_up_bounds : x <= round_up x al < x + al.
Proof.
  unfold round_up.
  pose proof (Z.div_mod (x + al - 1) al ltac:(lia)) as Hdm.
  pose proof (Z.mod_pos_bound (x + al - 1) al Hal) as Hmod.
  lia.
Qed.

Lemma round_up_least q : x <= q -> q mod al = 0 -> round_up x al <= q.
Proof.
  intros Hxq Hq. unfold round_up.
  apply Z.mod_divide in Hq; [|lia]. destruct Hq as [t ->].
  rewrite (Z.mul_comm t al).
  apply Z.mul_le_mono_nonneg_l; [lia|].
  enough ((x + al - 1) / al < t + 1) by lia.
  apply Z.div_lt_upper_bound; [exact Hal|]. nia.
Qed.

Lemma round_up_fixed : x mod al = 0 -> round_up x al = x.
Proof.
  intros Hx. pose proof round_up_bounds as Hb.
  pose proof (round_up_least x ltac:(lia) Hx). lia.
Qed.

End Multiple.

Lemma round_up_mono x y al : 0 < al -> x <= y -> round_up x al <= round_up y al.
Proof.
  intros Hal Hxy. apply round_up_least; [exact Hal| |].
  - pose proof (round_up_bounds y al Hal). lia.
  - apply round_up_multiple.
Qed.

End RoundUp.

(** ** MemoryArena: what [allocate] computes *)

Module ArenaFacts.
Import SizeT SizeTFacts MemoryArena RoundUp.

(** A throwing call returns the object it was given. *)
Lemma allocate_Throw_inv a size alignment e a' :
  allocate a size alignment = (Throw e, a') -> e = bad_alloc /\ a' = a.
Proof.
  unfold allocate.
  destruct (capacity a <?
            add (add (offset a) (adjustment a alignment)) size);
    intros Heq; inversion Heq; subst; split; reflexivity.
Qed.

(** No call moves or resizes the block. *)
Lemma step_block a c :
  buffer (step a c) = buffer a /\ capacity (step a c) = capacity a.
Proof.
  destruct c as [size alignment|]; cbn [step]; [|split; reflexivity].
  unfold allocate.
  destruct (capacity a <?
            add (add (offset a) (adjustment a alignment)) size);
    split; reflexivity.
Qed.

Lemma run_block cs : forall a,
  buffer (run a cs) = buffer a /\ capacity (run a cs) = capacity a.
Proof.
  induction cs as [|c cs IH]; intros a; [split; reflexivity|].
  cbn [run fold_left]. destruct (IH (step a c)) as (Hb & Hc).
  destruct (step_block a c) as (Hb' & Hc').
  unfold run in *. split; congruence.
Qed.

(** The cursor stays inside the block, whatever the arguments of the call:
    the value stored in [offset] is the value the bound check accepted. *)
Lemma step_wf a c : wf a -> wf (step a c).
Proof.
  intros (Hblock & Hoff). destruct c as [size alignment|]; cbn [step].
  - unfold allocate.
    destruct (Z.ltb_spec (capacity a)
                (add (add (offset a) (adjustment a alignment)) size))
      as [_|Hfits]; cbn [snd]; [split; assumption|].
    split; cbn [buffer capacity offset]; [exact Hblock|].
    unfold add in *. rewrite wrap_add_r, Z.add_assoc.
    rewrite wrap_add_l in Hfits.
    split; [apply wrap_range | exact Hfits].
  - split; cbn [reset buffer capacity offset]; [exact Hblock|].
    destruct Hblock as (_ & Hsize & _). lia.
Qed.

Lemma reachable_wf a : reachable a -> wf a.
Proof.
  induction 1 as [addr size Hblock | a c _ IH].
  - split; [exact Hblock|]. cbn [ctor offset capacity].
    destruct Hblock as (_ & Hsize & _). lia.
  - apply step_wf, IH.
Qed.

Lemma run_reachable cs : forall a, reachable a -> reachable (run a cs).
Proof.
  induction cs as [|c cs IH]; intros a Ha; [exact Ha|].
  cbn [run fold_left]. apply IH. now constructor.
Qed.

Section OneCall.

Variables (a : t) (k : Z).
Hypothesis Hwf : wf a.
Hypothesis Hk : 0 <= k < 64.

Local Abbreviation al := (2 ^ k).
Local Abbreviation cur := (buffer a + offset a).

Lemma cur_bounds : 0 < cur <= 2 ^ 63.
Proof.
  destruct Hwf as ((Hb & Hc & Htop) & Ho).
  rewrite PTRDIFF_MAX_eq in Htop. lia.
Qed.

Lemma current_eq : current a = cur.
Proof.
  unfold current, add. apply wrap_small.
  pose proof cur_bounds. rewrite modulus_eq. lia.
Qed.

Lemma round_up_cur_bounds : cur <= round_up cur al <= 2 ^ 63.
Proof.
  pose proof (pow2_pos k ltac:(lia)) as Hpos.
  pose proof (round_up_bounds cur al Hpos). split; [lia|].
  apply round_up_least; [exact Hpos | apply cur_bounds |].
  apply pow2_divides_half, Hk.
Qed.

Lemma aligned_eq : aligned a al = round_up cur al.
Proof.
  pose proof (pow2_pos k ltac:(lia)) as Hpos.
  pose proof (pow2_le_half k Hk) as Hle.
  pose proof cur_bounds as Hcur.
  unfold aligned. rewrite current_eq.
  unfold sub at 1. unfold add. rewrite wrap_sub_l.
  rewrite (wrap_small (cur + al - 1)) by (rewrite modulus_eq; lia).
  rewrite band_bnot_mask by (rewrite ?modulus_eq; lia).
  reflexivity.
Qed.

Lemma adjustment_eq : adjustment a al = round_up cur al - cur.
Proof.
  pose proof round_up_cur_bounds as Hr. pose proof cur_bounds as Hcur.
  unfold adjustment. rewrite aligned_eq.
  unfold sub. rewrite wrap_sub_l.
  replace (round_up cur al - buffer a - offset a)
    with (round_up cur al - cur) by ring.
  apply wrap_small. rewrite modulus_eq. lia.
Qed.

(** [allocate] with its locals replaced by what they denote. *)
Lemma allocate_eq size :
  allocate a size al =
    let p := round_up cur al in
    let used := wrap (p - buffer a + size) in
    if capacity a <? used then (Throw bad_alloc, a)
    else (Ok p, {| buffer := buffer a; capacity := capacity a;
                   offset := used |}).
Proof.
  pose proof round_up_cur_bounds as Hr. pose proof cur_bounds as Hcur.
  unfold allocate. rewrite adjustment_eq. cbv zeta. unfold add.
  rewrite !wrap_add_l, wrap_add_r.
  replace (offset a + (round_up cur al - cur) + size)
    with (round_up cur al - buffer a + size) by ring.
  replace (offset a + (round_up cur al - cur + size))
    with (round_up cur al - buffer a + size) by ring.
  replace (cur + (round_up cur al - cur)) with (round_up cur al) by ring.
  rewrite (wrap_small (round_up cur al)) by (rewrite modulus_eq; lia).
  reflexivity.
Qed.

(** A request of at most [PTRDIFF_MAX] bytes cannot wrap the bound check. *)
Lemma used_no_wrap size :
  0 <= size <= PTRDIFF_MAX ->
  wrap (round_up cur al - buffer a + size) = round_up cur al - buffer a + size.
Proof.
  intros Hsize. pose proof round_up_cur_bounds as Hr.
  destruct Hwf as ((Hb & _) & Ho).
  rewrite PTRDIFF_MAX_eq in Hsize.
  apply wrap_small. rewrite modulus_eq. lia.
Qed.

(** A successful call, for a request that does not wrap. *)
Lemma allocate_Ok_inv size p a' :
  0 <= size <= PTRDIFF_MAX ->
  allocate a size al = (Ok p, a') ->
  p = round_up cur al /\
  p + size <= buffer a + capacity a /\
  a' = {| buffer := buffer a; capacity := capacity a;
          offset := p + size - buffer a |}.
Proof.
  intros Hsize Hok. rewrite allocate_eq in Hok. cbv zeta in Hok.
  rewrite used_no_wrap in Hok by exact Hsize.
  destruct (Z.ltb_spec (capacity a) (round_up cur al - buffer a + size))
    as [|Hfits]; [discriminate|].
  inversion Hok; subst. split; [reflexivity|]. split; [lia|].
  f_equal. ring.
Qed.

End OneCall.

Lemma allocate_Ok_wf a k size p a' :
  wf a -> 0 <= k < 64 -> 0 <= size <= PTRDIFF_MAX ->
  allocate a size (2 ^ k) = (Ok p, a') ->
  wf a' /\ buffer a' = buffer a /\ offset a' = p + size - buffer a.
Proof.
  intros Hwf Hk Hsize Hok.
  pose proof (step_wf a (call_allocate size (2 ^ k)) Hwf) as Hwf'.
  cbn [step] in Hwf'. rewrite Hok in Hwf'. cbn [snd] in Hwf'.
  destruct (allocate_Ok_inv a k Hwf Hk size p a' Hsize Hok) as (_ & _ & ->).
  split; [exact Hwf'|]. split; reflexivity.
Qed.

(** [Arena::allocate(size)] is [MemoryArena::allocate(size, 1)]: the results
    on [MemoryArena] at alignment 1 carry over to the plain arena. *)
Lemma plain_allocate a size :
  wf a ->
  Arena.allocate (plain a) size =
    (fst (allocate a size 1), plain (snd (allocate a size 1))).
Proof.
  intros Hwf. change 1 with (2 ^ 0).
  rewrite (allocate_eq a 0 Hwf ltac:(lia)). cbv zeta.
  rewrite (round_up_fixed (buffer a + offset a) (2 ^ 0)) by
    (try apply Z.mod_1_r; cbn; lia).
  replace (buffer a + offset a - buffer a + size) with (offset a + size) by ring.
  unfold Arena.allocate, plain. cbn [Arena.memory Arena.capacity Arena.offset].
  fold (current a). rewrite (current_eq a Hwf). unfold add.
  destruct (capacity a <? wrap (offset a + size)); reflexivity.
Qed.

(** C2.  In every reachable state, a successful [allocate(size, alignment)]
    with [alignment = 2^k] returns a multiple of [alignment]; it is the
    smallest multiple at or after [buffer + offset]; and it is the value of
    the local [aligned], that is [(current + alignment - 1) & ~(alignment - 1)]. *)
Theorem allocate_returns_least_aligned_address
    (a : t) (size k p : Z) (a' : t) :
  reachable a ->
  0 <= k < 64 ->
  allocate a size (2 ^ k) = (Ok p, a') ->
  p mod 2 ^ k = 0 /\
  buffer a + offset a <= p /\
  (forall q, buffer a + offset a <= q -> q mod 2 ^ k = 0 -> p <= q) /\
  p = aligned a (2 ^ k) /\
  p = Z.land (buffer a + offset a + 2 ^ k - 1) (Z.lnot (2 ^ k - 1)).
Proof.
  intros Hreach Hk Hok. apply reachable_wf in Hreach.
  pose proof (pow2_pos k ltac:(lia)) as Hpos.
  rewrite (allocate_eq a k Hreach Hk) in Hok. cbv zeta in Hok.
  destruct (capacity a <? _); [discriminate|].
  inversion Hok; subst p a'; clear Hok.
  split; [apply round_up_multiple|].
  split; [apply round_up_bounds, Hpos|].
  split; [intros q; apply round_up_least, Hpos|].
  split; [symmetry; apply (aligned_eq a k Hreach Hk)|].
  rewrite land_lnot_mask by lia. reflexivity.
Qed.

Lemma allocate_returns_least_aligned_address_witness :
  reachable (ctor 4100 64) /\ 0 <= 4 < 64 /\
  allocate (ctor 4100 64) 8 (2 ^ 4) =
    (Ok 4112, {| buffer := 4100; capacity := 64; offset := 20 |}) /\
  4112 mod 2 ^ 4 = 0.
Proof.
  assert (Hreach : reachable (ctor 4100 64)).
  { constructor. unfold user_block. rewrite PTRDIFF_MAX_eq. lia. }
  assert (Hk : 0 <= 4 < 64) by lia.
  assert (Hok : allocate (ctor 4100 64) 8 (2 ^ 4) =
                (Ok 4112, {| buffer := 4100; capacity := 64; offset := 20 |}))
    by reflexivity.
  split; [exact Hreach | split; [exact Hk | split; [exact Hok|]]].
  exact (proj1 (allocate_returns_least_aligned_address _ 8 4 4112 _
                  Hreach Hk Hok)).
Defined.

(** The capacity boundary of C4, on a fresh arena of 64 bytes. *)
Lemma capacity_boundary_64 addr :
  user_block addr 64 ->
  allocate (ctor addr 64) 64 1 =
    (Ok addr, {| buffer := addr; capacity := 64; offset := 64 |}) /\
  allocate (ctor addr 64) 65 1 = (Throw bad_alloc, ctor addr 64).
Proof.
  intros Hblock.
  assert (Hwf : wf (ctor addr 64)) by (apply reachable_wf; now constructor).
  destruct Hblock as (Hpos & _ & Htop). rewrite PTRDIFF_MAX_eq in Htop.
  change 1 with (2 ^ 0).
  rewrite !(allocate_eq (ctor addr 64) 0 Hwf ltac:(lia)).
  cbn [ctor buffer capacity offset]. cbv zeta.
  rewrite Z.add_0_r, (round_up_fixed addr (2 ^ 0)) by
    (try apply Z.mod_1_r; cbn; lia).
  replace (addr - addr + 64) with 64 by ring.
  replace (addr - addr + 65) with 65 by ring.
  split; reflexivity.
Qed.

(** Without wrap-around the bound check is the one the text describes. *)
Lemma allocate_throws_iff a k size :
  wf a -> 0 <= k < 64 -> 0 <= size <= PTRDIFF_MAX ->
  fst (allocate a size (2 ^ k)) = Throw bad_alloc <->
  capacity a < offset a + adjustment a (2 ^ k) + size.
Proof.
  intros Hwf Hk Hsize.
  rewrite (allocate_eq a k Hwf Hk), (adjustment_eq a k Hwf Hk). cbv zeta.
  rewrite (used_no_wrap a k Hwf Hk) by exact Hsize.
  replace (offset a + (round_up (buffer a + offset a) (2 ^ k)
                       - (buffer a + offset a)) + size)
    with (round_up (buffer a + offset a) (2 ^ k) - buffer a + size) by ring.
  destruct (Z.ltb_spec (capacity a)
              (round_up (buffer a + offset a) (2 ^ k) - buffer a + size));
    cbn [fst]; split; intros; try reflexivity; try lia; discriminate.
Qed.

(** C4 (the code departs from it).  The boundary cases hold
    ([capacity_boundary_64]), and so does the general rule while the sum
    stays below [2^64] ([allocate_throws_iff]).  But the sum
    [offset + adjustment + size] is computed in [size_t]: after one byte has
    been handed out, a request of [SIZE_MAX] bytes wraps it to 0, the check
    passes, and the call succeeds although the sum exceeds the capacity.  The
    plain [Arena] has the same check and the same behaviour. *)
Theorem oversized_request_passes_bound_check :
  let a1 := snd (allocate (ctor 4096 64) 1 1) in
  let s1 := snd (Arena.allocate (Arena.ctor 4096 64) 1) in
  capacity a1 < offset a1 + adjustment a1 1 + SIZE_MAX /\
  allocate a1 SIZE_MAX 1 =
    (Ok 4097, {| buffer := 4096; capacity := 64; offset := 0 |}) /\
  Arena.capacity s1 < Arena.offset s1 + SIZE_MAX /\
  Arena.allocate s1 SIZE_MAX =
    (Ok 4097, {| Arena.memory := 4096; Arena.capacity := 64;
                 Arena.offset := 0 |}).
Proof. cbv zeta. repeat split. Qed.

(** C5 fails as stated: a request of zero bytes on a full arena succeeds and
    returns [buffer + capacity], which is outside [[buffer, buffer + capacity)]. *)
Lemma zero_size_at_end_returns_past_the_end :
  let a1 := snd (allocate (ctor 4096 64) 64 1) in
  reachable a1 /\
  allocate a1 0 1 = (Ok 4160, a1) /\
  ~ (buffer a1 <= 4160 < buffer a1 + capacity a1).
Proof.
  cbv zeta. split; [|split].
  - apply (reach_step (ctor 4096 64) (call_allocate 64 1)).
    constructor. unfold user_block. rewrite PTRDIFF_MAX_eq. lia.
  - reflexivity.
  - cbn. lia.
Qed.

(** C5, amended.  In every state reachable by [allocate] and [reset] calls
    (with any arguments) [0 <= offset <= capacity]; and a successful
    [allocate(size, 2^k)] with [size <= PTRDIFF_MAX] returns an address [p]
    that is a multiple of [2^k] with [buffer <= p] and
    [p + size <= buffer + capacity]: the block lies in the buffer, [p] is in
    [[buffer, buffer + capacity)] when [size > 0] and may be
    [buffer + capacity] only when [size = 0]. *)
Theorem arena_invariant (a : t) :
  reachable a ->
  0 <= offset a <= capacity a /\
  forall size k p a',
    0 <= k < 64 -> 0 <= size <= PTRDIFF_MAX ->
    allocate a size (2 ^ k) = (Ok p, a') ->
    buffer a <= p /\
    p + size <= buffer a + capacity a /\
    (0 < size -> p < buffer a + capacity a) /\
    p mod 2 ^ k = 0.
Proof.
  intros Hreach. pose proof (reachable_wf a Hreach) as Hwf.
  split; [apply Hwf|].
  intros size k p a' Hk Hsize Hok.
  destruct (allocate_Ok_inv a k Hwf Hk size p a' Hsize Hok) as (Hp & Hend & _).
  pose proof (round_up_cur_bounds a k Hwf Hk) as Hr.
  destruct Hwf as (_ & Hoff). subst p.
  split; [lia|]. split; [exact Hend|]. split; [lia|].
  apply round_up_multiple.
Qed.

Lemma arena_invariant_witness :
  reachable (step (ctor 4096 64) (call_allocate 24 8)) /\
  0 <= offset (step (ctor 4096 64) (call_allocate 24 8))
    <= capacity (step (ctor 4096 64) (call_allocate 24 8)).
Proof.
  assert (Hreach : reachable (step (ctor 4096 64) (call_allocate 24 8))).
  { apply reach_step. constructor.
    unfold user_block. rewrite PTRDIFF_MAX_eq. lia. }
  split; [exact Hreach|].
  exact (proj1 (arena_invariant _ Hreach)).
Defined.

(** The first grant of a run starts at the cursor plus its padding. *)
Lemma grants_head reqs : forall a,
  wf a -> Forall sane_request reqs ->
  match grants a reqs with
  | [] => True
  | g :: _ => g_ptr g = buffer a + offset a + g_padding g /\ 0 <= g_padding g
  end.
Proof.
  induction reqs as [|[size al] reqs IH]; intros a Hwf Hsane; [exact I|].
  inversion Hsane as [|? ? (Hsize & k & Hk & Hal) Hrest]; subst.
  cbn [fst snd] in Hsize, Hal. subst al. cbn [grants].
  destruct (allocate a size (2 ^ k)) as [[p|e] a'] eqn:Hcall.
  - destruct (allocate_Ok_inv a k Hwf Hk size p a' Hsize Hcall) as (Hp & _).
    cbn [g_ptr g_padding]. rewrite (adjustment_eq a k Hwf Hk).
    pose proof (round_up_cur_bounds a k Hwf Hk). lia.
  - apply allocate_Throw_inv in Hcall. destruct Hcall as (_ & ->).
    apply IH; assumption.
Qed.

(** Monotonicity of C7 for requests of at most [PTRDIFF_MAX] bytes:
    successive grants are chained, each one ending exactly where the padding
    of the next one begins. *)
Lemma grants_chained reqs : forall a,
  wf a -> Forall sane_request reqs -> chained (grants a reqs).
Proof.
  induction reqs as [|[size al] reqs IH]; intros a Hwf Hsane; [exact I|].
  inversion Hsane as [|? ? (Hsize & k & Hk & Hal) Hrest]; subst.
  cbn [fst snd] in Hsize, Hal. subst al. cbn [grants].
  destruct (allocate a size (2 ^ k)) as [[p|e] a'] eqn:Hcall.
  - destruct (allocate_Ok_wf a k size p a' Hwf Hk Hsize Hcall)
      as (Hwf' & Hbuf & Hoff).
    pose proof (IH a' Hwf' Hrest) as Hchain.
    pose proof (grants_head reqs a' Hwf' Hrest) as Hhead.
    destruct (grants a' reqs) as [|g2 rest]; [exact I|].
    cbn [chained g_ptr g_size]. destruct Hhead as (Hptr & Hpad).
    rewrite Hbuf, Hoff in Hptr.
    split; [lia|]. split; [lia | exact Hchain].
  - apply allocate_Throw_inv in Hcall. destruct Hcall as (_ & ->).
    apply IH; assumption.
Qed.

(** C7 (the code departs from it).  Successive grants are chained as long as
    no request exceeds [PTRDIFF_MAX] bytes ([grants_chained]).  A request of
    [SIZE_MAX] bytes, however, succeeds through the wrapped bound check and
    wraps [offset] back to 0, so the next grant lies below the previous one. *)
Theorem oversized_request_rewinds_the_cursor :
  grants (ctor 4096 64) [(1, 1); (SIZE_MAX, 1); (1, 1)] =
    [ {| g_ptr := 4096; g_size := 1; g_padding := 0 |};
      {| g_ptr := 4097; g_size := SIZE_MAX; g_padding := 0 |};
      {| g_ptr := 4096; g_size := 1; g_padding := 0 |} ] /\
  ~ chained (grants (ctor 4096 64) [(1, 1); (SIZE_MAX, 1); (1, 1)]).
Proof.
  split; [reflexivity|].
  change (grants (ctor 4096 64) [(1, 1); (SIZE_MAX, 1); (1, 1)])
    with [ {| g_ptr := 4096; g_size := 1; g_padding := 0 |};
           {| g_ptr := 4097; g_size := SIZE_MAX; g_padding := 0 |};
           {| g_ptr := 4096; g_size := 1; g_padding := 0 |} ].
  cbn [chained g_ptr g_size g_padding]. lia.
Qed.

(** C8 fails as stated: the address after a reset depends on the alignment
    of the request, not on the first allocation the arena ever made.  Here
    the first allocation (alignment 8) is at 4112, and the request (8, 64),
    which succeeded before the reset, gets 4160 after it. *)
Lemma realigned_request_differs_from_first_allocation :
  let a0 := ctor 4112 1024 in
  let first := allocate a0 8 8 in
  let before := allocate (snd first) 8 64 in
  let after := allocate (reset (snd before)) 8 64 in
  fst first = Ok 4112 /\
  fst before = Ok 4160 /\
  fst after = Ok 4160 /\
  fst after <> fst first.
Proof. cbv zeta. repeat split. cbn. discriminate. Qed.

(** C8, amended.  [reset()] at [offset == 0] changes nothing.  After any
    later calls and a [reset()], a request [(size, 2^k)] with
    [size <= PTRDIFF_MAX] that succeeded before succeeds again and returns
    the base of the buffer rounded up to [2^k]; this is the address of the
    first allocation of the arena whenever that one had the same alignment. *)
Theorem reset_then_allocate_again :
  (forall b : t, offset b = 0 -> reset b = b) /\
  (forall (a : t) (size k p : Z) (a' : t) (cs : list call),
     reachable a ->
     0 <= k < 64 -> 0 <= size <= PTRDIFF_MAX ->
     allocate a size (2 ^ k) = (Ok p, a') ->
     fst (allocate (reset (run a' cs)) size (2 ^ k))
       = Ok (round_up (buffer a) (2 ^ k)) /\
     (forall size0 p0 a0,
        allocate (ctor (buffer a) (capacity a)) size0 (2 ^ k) = (Ok p0, a0) ->
        p0 = round_up (buffer a) (2 ^ k))).
Proof.
  split.
  - intros [b c o] Ho. cbn in Ho. subst o. reflexivity.
  - intros a size k p a' cs Hreach Hk Hsize Hok.
    pose proof (reachable_wf a Hreach) as Hwf.
    pose proof (pow2_pos k ltac:(lia)) as Hpos.
    destruct (allocate_Ok_inv a k Hwf Hk size p a' Hsize Hok)
      as (Hp & Hend & Ha').
    assert (Hfresh : forall b, buffer b = buffer a -> capacity b = capacity a ->
                      offset b = 0 -> wf b).
    { intros b Hb Hc Ho. destruct Hwf as (Hblock & _).
      split; [rewrite Hb, Hc; exact Hblock|].
      rewrite Ho, Hc. destruct Hblock as (_ & Hcap & _). lia. }
    split.
    + set (b := reset (run a' cs)).
      assert (Hb : buffer b = buffer a /\ capacity b = capacity a).
      { destruct (run_block cs a') as (Hb1 & Hc1).
        subst b a'. cbn [reset buffer capacity] in *. now split. }
      destruct Hb as (Hb & Hc).
      assert (Hwfb : wf b) by (apply Hfresh; [exact Hb | exact Hc | reflexivity]).
      rewrite (allocate_eq b k Hwfb Hk). cbv zeta.
      rewrite (used_no_wrap b k Hwfb Hk) by exact Hsize.
      replace (offset b) with 0 by reflexivity.
      rewrite Hb, Hc, Z.add_0_r.
      pose proof (round_up_mono (buffer a) (buffer a + offset a) (2 ^ k) Hpos
                    ltac:(destruct Hwf as (_ & ?); lia)) as Hmono.
      destruct (Z.ltb_spec (capacity a)
                  (round_up (buffer a) (2 ^ k) - buffer a + size));
        [lia | reflexivity].
    + intros size0 p0 a0 Hfirst.
      assert (Hwf0 : wf (ctor (buffer a) (capacity a)))
        by (apply Hfresh; reflexivity).
      rewrite (allocate_eq _ k Hwf0 Hk) in Hfirst. cbv zeta in Hfirst.
      cbn [ctor buffer capacity offset] in Hfirst.
      rewrite Z.add_0_r in Hfirst.
      destruct (capacity a <? _); [discriminate|].
      now inversion Hfirst.
Qed.

Lemma reset_then_allocate_again_witness :
  reachable (ctor 4112 1024) /\
  allocate (ctor 4112 1024) 8 (2 ^ 6) =
    (Ok 4160, {| buffer := 4112; capacity := 1024; offset := 56 |}) /\
  fst (allocate
         (reset (run {| buffer := 4112; capacity := 1024; offset := 56 |}
                     [call_allocate 100 16]))
         8 (2 ^ 6))
    = Ok (round_up 4112 (2 ^ 6)).
Proof.
  assert (Hreach : reachable (ctor 4112 1024)).
  { constructor. unfold user_block. rewrite PTRDIFF_MAX_eq. lia. }
  assert (Hok : allocate (ctor 4112 1024) 8 (2 ^ 6) =
                (Ok 4160, {| buffer := 4112; capacity := 1024; offset := 56 |}))
    by reflexivity.
  split; [exact Hreach | split; [exact Hok|]].
  refine (proj1 (proj2 reset_then_allocate_again (ctor 4112 1024) 8 6 4160 _
                   [call_allocate 100 16] Hreach _ _ Hok)).
  - lia.
  - rewrite PTRDIFF_MAX_eq. lia.
Defined.

End ArenaFacts.

(** ** Failed calls *)

Module FailureFacts.
Import Mem.

(** C10.  A call that fails with [bad_alloc] -- [Allocate] on the pool,
    [allocate] on either arena -- returns the allocator exactly as it was
    given: the pool's free-list head and the memory that holds the chain,
    the arena's [offset] (and buffer and capacity) are unchanged. *)
Theorem failed_allocation_leaves_state_unchanged :
  (forall (p : MemoryPool.t) (m : memory) e p' m',
     MemoryPool.Allocate p m = (Throw e, p', m') ->
     e = bad_alloc /\ p' = p /\ m' = m /\
     forall fuel,
       MemoryPool.free_chain fuel m' (MemoryPool.m_FreeList p') =
       MemoryPool.free_chain fuel m (MemoryPool.m_FreeList p)) /\
  (forall (a : Arena.t) size e a',
     Arena.allocate a size = (Throw e, a') -> e = bad_alloc /\ a' = a) /\
  (forall (a : MemoryArena.t) size alignment e a',
     MemoryArena.allocate a size alignment = (Throw e, a') ->
     e = bad_alloc /\ a' = a).
Proof.
  split; [|split].
  - intros p m e p' m' Hcall. unfold MemoryPool.Allocate in Hcall.
    destruct (MemoryPool.m_FreeList p =? MemoryPool.nullptr);
      inversion Hcall; subst. repeat split; reflexivity.
  - intros a size e a' Hcall. unfold Arena.allocate in Hcall.
    destruct (Arena.capacity a <? SizeT.add (Arena.offset a) size);
      inversion Hcall; subst. split; reflexivity.
  - intros a size alignment e a'. apply ArenaFacts.allocate_Throw_inv.
Qed.

Lemma failed_allocation_leaves_state_unchanged_witness :
  let p := {| MemoryPool.m_Pool := 4096; MemoryPool.m_FreeList := 0;
              MemoryPool.m_BlockCount := 1 |} in
  MemoryPool.Allocate p zeroed = (Throw bad_alloc, p, zeroed) /\
  (bad_alloc = bad_alloc /\ p = p /\ zeroed = zeroed).
Proof.
  cbv zeta.
  assert (Hcall : MemoryPool.Allocate
            {| MemoryPool.m_Pool := 4096; MemoryPool.m_FreeList := 0;
               MemoryPool.m_BlockCount := 1 |} zeroed =
          (Throw bad_alloc,
           {| MemoryPool.m_Pool := 4096; MemoryPool.m_FreeList := 0;
              MemoryPool.m_BlockCount := 1 |}, zeroed)) by reflexivity.
  split; [exact Hcall|].
  destruct (proj1 failed_allocation_leaves_state_unchanged _ _ _ _ _ Hcall)
    as (He & Hp & Hm & _).
  split; [exact He | split; [exact Hp | exact Hm]].
Defined.

End FailureFacts.

(** * Further properties *)

(** ** MemoryPool: the free list as a stack *)

Module FreeListFacts.
Import Mem MemFacts MemoryPool FreeList SizeTFacts.

Lemma apart_sym a b : apart a b -> apart b a.
Proof. unfold apart. tauto. Qed.

Lemma store_ptr_outside m a v x :
  x < a \/ a + sizeof_ptr <= x -> store_ptr m a v x = m x.
Proof.
  intros Hx. unfold store_ptr. apply store_bytes_outside.
  rewrite length_encode_le. unfold sizeof_ptr, ptr_bytes in *. lia.
Qed.

(** A store clear of every block of a free list leaves the list as it is. *)
Lemma chain_frame l : forall m head a v,
  chain m head l -> Forall (apart a) l -> chain (store_ptr m a v) head l.
Proof.
  induction l as [|b l IH]; intros m head a v Hchain Hapart; [exact Hchain|].
  cbn [chain] in *. destruct Hchain as (Hhead & Hnn & Hrest).
  inversion Hapart as [|? ? Hab Hal]; subst.
  split; [reflexivity|]. split; [exact Hnn|].
  rewrite load_store_ptr_apart by (destruct Hab; [right | left]; lia).
  apply IH; assumption.
Qed.

Lemma chain_head_range m head l :
  chain m head l -> Forall block_ok l -> 0 <= head < SizeT.modulus.
Proof.
  destruct l as [|b l]; cbn [chain].
  - intros -> _. unfold nullptr. pose proof modulus_pos. lia.
  - intros (-> & _) Hok. inversion Hok as [|? ? Hb _]; subst.
    unfold block_ok in Hb. lia.
Qed.

(** The executable walk of the free list finds exactly the blocks of the
    chain. *)
Lemma chain_free_chain l : forall m head fuel,
  chain m head l -> (length l < fuel)%nat -> free_chain fuel m head = l.
Proof.
  induction l as [|b l IH]; intros m head fuel Hchain Hfuel;
    (destruct fuel as [|fuel]; [cbn in Hfuel; lia|]); cbn [free_chain chain] in *.
  - subst head. reflexivity.
  - destruct Hchain as (-> & Hnn & Hrest).
    destruct (Z.eqb_spec b nullptr); [contradiction|].
    f_equal. apply IH; [exact Hrest | cbn in Hfuel; lia].
Qed.

Lemma Allocate_chain_cons p m b l :
  chain m (m_FreeList p) (b :: l) ->
  Allocate p m = (Ok b, set_FreeList p (load_ptr m b), m).
Proof.
  cbn [chain]. intros (Hhead & Hnn & _). unfold Allocate. rewrite Hhead.
  destruct (Z.eqb_spec b nullptr); [contradiction | reflexivity].
Qed.

Lemma Allocate_chain_nil p m :
  chain m (m_FreeList p) [] -> Allocate p m = (Throw bad_alloc, p, m).
Proof.
  cbn [chain]. intros Hhead. unfold Allocate. rewrite Hhead.
  now rewrite Z.eqb_refl.
Qed.

(** [k] calls on a free list [l]: the first [length l] of them return the
    blocks of [l] in order, all the others throw. *)
Lemma Allocate_n_chain k : forall p m l,
  chain m (m_FreeList p) l ->
  let r := Allocate_n k p m in
  fst (fst r) =
    map Ok (firstn k l) ++ repeat (Throw bad_alloc) (k - length l) /\
  chain m (m_FreeList (snd (fst r))) (skipn k l) /\
  snd r = m.
Proof.
  induction k as [|k IH]; intros p m l Hchain; cbv zeta.
  - cbn. repeat split. exact Hchain.
  - cbn [Allocate_n]. destruct l as [|b l].
    + rewrite (Allocate_chain_nil p m Hchain).
      specialize (IH p m [] Hchain). cbv zeta in IH.
      destruct (Allocate_n k p m) as [[rs p2] m2]. cbn [fst snd] in *.
      destruct IH as (Hrs & Hch & Hm).
      rewrite Hrs. rewrite firstn_nil, skipn_nil in *. cbn [length map app] in *.
      rewrite Nat.sub_0_r in *. repeat split; assumption.
    + rewrite (Allocate_chain_cons p m b l Hchain).
      cbn [chain] in Hchain. destruct Hchain as (_ & _ & Hrest).
      specialize (IH (set_FreeList p (load_ptr m b)) m l Hrest).
      cbv zeta in IH.
      destruct (Allocate_n k (set_FreeList p (load_ptr m b)) m)
        as [[rs p2] m2]. cbn [fst snd] in *.
      destruct IH as (Hrs & Hch & Hm).
      rewrite Hrs. cbn [firstn skipn length map app Nat.sub].
      repeat split; assumption.
Qed.

(** One push on a free list. *)
Lemma Deallocate_chain (p : t) (m : memory) (l : list Z) (ptr : Z) :
  chain m (m_FreeList p) l ->
  Forall block_ok l ->
  block_ok ptr ->
  Forall (apart ptr) l ->
  chain (snd (Deallocate p ptr m)) (m_FreeList (fst (Deallocate p ptr m)))
        (ptr :: l).
Proof.
  intros Hchain Hok Hptr Hapart.
  unfold Deallocate. cbn [fst snd set_FreeList m_FreeList chain].
  split; [reflexivity|]. split; [unfold block_ok, nullptr in *; lia|].
  rewrite load_store_ptr_same.
  rewrite (wrap_small (m_FreeList p)) by (eapply chain_head_range; eassumption).
  apply chain_frame; assumption.
Qed.

(** X3.  [Deallocate] pushes: if the free list is the blocks [l] and [ptr]
    is a non-null block that overlaps none of them, then after
    [Deallocate(ptr)] the free list is [ptr] followed by [l], unchanged. *)
Theorem Deallocate_pushes_block (p : t) (m : memory) (l : list Z) (ptr : Z) :
  chain m (m_FreeList p) l ->
  Forall block_ok l ->
  block_ok ptr ->
  Forall (apart ptr) l ->
  chain (snd (Deallocate p ptr m)) (m_FreeList (fst (Deallocate p ptr m)))
        (ptr :: l).
Proof. exact (Deallocate_chain p m l ptr). Qed.

Lemma Deallocate_pushes_block_witness :
  let p := {| m_Pool := 4096; m_FreeList := 4160; m_BlockCount := 2 |} in
  let m := store_ptr zeroed 4160 0 in
  chain m (m_FreeList p) [4160] /\
  chain (snd (Deallocate p 4096 m)) (m_FreeList (fst (Deallocate p 4096 m)))
        [4096; 4160].
Proof.
  cbv zeta.
  assert (Hchain : chain (store_ptr zeroed 4160 0) 4160 [4160]).
  { cbn [chain]. split; [reflexivity|]. split; [unfold nullptr; lia|].
    reflexivity. }
  split; [exact Hchain|].
  apply (Deallocate_pushes_block
           {| m_Pool := 4096; m_FreeList := 4160; m_BlockCount := 2 |}
           (store_ptr zeroed 4160 0) [4160] 4096 Hchain).
  - constructor; [|constructor]. unfold block_ok. rewrite modulus_eq. lia.
  - unfold block_ok. rewrite modulus_eq. lia.
  - constructor; [|constructor]. unfold apart, sizeof_ptr. lia.
Defined.

(** X7.  A double free makes the free list cyclic: after [Deallocate(ptr)]
    twice in a row the block points to itself, and every following
    [Allocate] succeeds and returns [ptr] -- the pool never reports
    exhaustion again. *)
Theorem double_Deallocate_never_exhausts (p : t) (m : memory) (ptr : Z) (k : nat) :
  block_ok ptr ->
  let once := Deallocate p ptr m in
  let twice := Deallocate (fst once) ptr (snd once) in
  fst (fst (Allocate_n k (fst twice) (snd twice))) = repeat (Ok ptr) k.
Proof.
  intros Hptr. cbv zeta.
  assert (Hloop : forall (q : t) (mem : memory),
            m_FreeList q = ptr -> load_ptr mem ptr = ptr ->
            fst (fst (Allocate_n k q mem)) = repeat (Ok ptr) k).
  { induction k as [|k IH]; intros q mem Hq Hself; [reflexivity|].
    cbn [Allocate_n repeat]. unfold Allocate. rewrite Hq.
    destruct (Z.eqb_spec ptr nullptr) as [Hnull|_];
      [unfold block_ok, nullptr in *; lia|].
    specialize (IH (set_FreeList q (load_ptr mem ptr)) mem).
    destruct (Allocate_n k (set_FreeList q (load_ptr mem ptr)) mem)
      as [[rs q2] m2]. cbn [fst snd] in *.
    f_equal. apply IH; [cbn [set_FreeList m_FreeList]|]; exact Hself. }
  apply Hloop.
  - reflexivity.
  - unfold Deallocate. cbn [fst snd set_FreeList m_FreeList].
    rewrite load_store_ptr_same. apply wrap_small.
    unfold block_ok in Hptr. lia.
Qed.

Lemma double_Deallocate_never_exhausts_witness :
  let p := {| m_Pool := 4096; m_FreeList := 0; m_BlockCount := 1 |} in
  block_ok 4096 /\
  fst (fst (Allocate_n 5
              (fst (Deallocate (fst (Deallocate p 4096 zeroed)) 4096
                               (snd (Deallocate p 4096 zeroed))))
              (snd (Deallocate (fst (Deallocate p 4096 zeroed)) 4096
                               (snd (Deallocate p 4096 zeroed))))))
    = repeat (Ok 4096) 5.
Proof.
  cbv zeta.
  assert (Hptr : block_ok 4096) by (unfold block_ok; rewrite modulus_eq; lia).
  split; [exact Hptr|].
  exact (double_Deallocate_never_exhausts
           {| m_Pool := 4096; m_FreeList := 0; m_BlockCount := 1 |}
           zeroed 4096 5 Hptr).
Defined.

(** X9.  An exhausted pool recovers by exactly one block per [Deallocate]:
    after [Deallocate(ptr)] on a pool whose free list is empty, the next
    [Allocate] returns [ptr] and the one after it throws [bad_alloc]. *)
Theorem exhausted_pool_recovers_one_block (p : t) (m : memory) (ptr : Z) :
  m_FreeList p = nullptr ->
  block_ok ptr ->
  let freed := Deallocate p ptr m in
  fst (fst (Allocate_n 2 (fst freed) (snd freed))) =
    [Ok ptr; Throw bad_alloc].
Proof.
  intros Hempty Hptr. cbv zeta.
  pose proof (Deallocate_chain p m [] ptr Hempty
                (Forall_nil _) Hptr (Forall_nil _)) as Hchain.
  destruct (Allocate_n_chain 2 _ _ _ Hchain) as (Hrs & _).
  exact Hrs.
Qed.

Lemma exhausted_pool_recovers_one_block_witness :
  let p := {| m_Pool := 4096; m_FreeList := 0; m_BlockCount := 3 |} in
  m_FreeList p = nullptr /\ block_ok 4160 /\
  fst (fst (Allocate_n 2 (fst (Deallocate p 4160 zeroed))
                         (snd (Deallocate p 4160 zeroed)))) =
    [Ok 4160; Throw bad_alloc].
Proof.
  cbv zeta.
  assert (Hptr : block_ok 4160) by (unfold block_ok; rewrite modulus_eq; lia).
  split; [reflexivity | split; [exact Hptr|]].
  exact (exhausted_pool_recovers_one_block
           {| m_Pool := 4096; m_FreeList := 0; m_BlockCount := 3 |}
           zeroed 4160 eq_refl Hptr).
Defined.

End FreeListFacts.

(** ** AllocatorTester::TestMemoryPool on a free list *)

Module TesterFacts.
Import Mem MemFacts MemoryPool FreeList SizeTFacts FreeListFacts AllocatorTester.

Lemma FOP_snoc {A} (R : A -> A -> Prop) l x :
  ForallOrdPairs R l -> Forall (fun y => R y x) l ->
  ForallOrdPairs R (l ++ [x]).
Proof.
  induction 1 as [|a l Ha Hl IH]; intros Hx; cbn [app].
  - constructor; constructor.
  - inversion Hx as [|? ? Hax Hlx]; subst. constructor.
    + apply Forall_app. split; [exact Ha | constructor; [exact Hax | constructor]].
    + apply IH, Hlx.
Qed.

Lemma FOP_rev {A} (R : A -> A -> Prop) l :
  (forall x y, R x y -> R y x) ->
  ForallOrdPairs R l -> ForallOrdPairs R (rev l).
Proof.
  intros Hsym. induction 1 as [|a l Ha Hl IH]; cbn [rev]; [constructor|].
  apply FOP_snoc; [exact IH|].
  apply Forall_rev. eapply Forall_impl; [|exact Ha]. intros y. apply Hsym.
Qed.

(** The first loop takes the blocks off the free list in order. *)
Lemma fill_enough count : forall acc p m l,
  chain m (m_FreeList p) l ->
  (count <= length l)%nat ->
  exists p',
    fill count acc p m = (Ok (acc ++ firstn count l), p', m) /\
    chain m (m_FreeList p') (skipn count l).
Proof.
  induction count as [|count IH]; intros acc p m l Hchain Hlen.
  - exists p. cbn [fill firstn skipn]. rewrite app_nil_r. now split.
  - destruct l as [|b l]; [cbn in Hlen; lia|].
    cbn [fill]. rewrite (Allocate_chain_cons p m b l Hchain).
    cbn [chain] in Hchain. destruct Hchain as (_ & _ & Hrest).
    destruct (IH (acc ++ [b]) (set_FreeList p (load_ptr m b)) m l Hrest
                ltac:(cbn in Hlen; lia)) as (p' & Hfill & Hch).
    exists p'. rewrite Hfill. cbn [firstn skipn].
    rewrite <- app_assoc. now split.
Qed.


(** The second loop pushes the blocks one by one. *)
Lemma drain_chain ptrs : forall p m l,
  chain m (m_FreeList p) l ->
  Forall block_ok l ->
  Forall block_ok ptrs ->
  ForallOrdPairs apart ptrs ->
  Forall (fun b => Forall (apart b) l) ptrs ->
  chain (snd (drain ptrs p m)) (m_FreeList (fst (drain ptrs p m)))
        (rev ptrs ++ l).
Proof.
  induction ptrs as [|b ptrs IH]; intros p m l Hchain Hok Hptrs Hsep Hclear;
    [exact Hchain|].
  cbn [drain rev].
  inversion Hptrs as [|? ? Hb Hrest]; subst.
  inversion Hsep as [|? ? Hbrest Hsep']; subst.
  inversion Hclear as [|? ? Hbl Hclear']; subst.
  pose proof (Deallocate_chain p m l b Hchain Hok Hb Hbl) as Hpush.
  destruct (Deallocate p b m) as [p1 m1]. cbn [fst snd] in Hpush.
  rewrite <- app_assoc. cbn [app].
  apply IH; try assumption.
  - constructor; assumption.
  - apply Forall_forall. intros c Hc. constructor.
    + apply apart_sym. rewrite Forall_forall in Hbrest. now apply Hbrest.
    + rewrite Forall_forall in Hclear'. now apply Hclear'.
Qed.

(** Both loops on a free list of exactly [length l] blocks. *)
Lemma TestMemoryPool_chain (p : t) (m : memory) (l : list Z) :
  chain m (m_FreeList p) l ->
  Forall block_ok l ->
  ForallOrdPairs apart l ->
  let r := TestMemoryPool (Z.of_nat (length l)) p m in
  fst (fst r) = Ok tt /\
  chain (snd r) (m_FreeList (snd (fst r))) (rev l).
Proof.
  intros Hchain Hok Hsep. cbv zeta. unfold TestMemoryPool.
  rewrite Nat2Z.id.
  destruct (fill_enough (length l) [] p m l Hchain (Nat.le_refl _))
    as (p1 & Hfill & Hempty).
  rewrite Hfill. cbn [app]. rewrite firstn_all in *. rewrite skipn_all in Hempty.
  pose proof (drain_chain l p1 m [] Hempty (Forall_nil _) Hok Hsep) as Hdrain.
  rewrite app_nil_r in Hdrain.
  destruct (drain l p1 m) as [p2 m2]. cbn [fst snd] in *.
  split; [reflexivity|]. apply Hdrain.
  apply Forall_forall. intros; constructor.
Qed.

(** X4.  [TestMemoryPool] with as many requests as there are free blocks
    never throws, and it gives every block back: afterwards the free list
    holds the same blocks in reverse order. *)
Theorem TestMemoryPool_reverses_free_list (p : t) (m : memory) (l : list Z) :
  chain m (m_FreeList p) l ->
  Forall block_ok l ->
  ForallOrdPairs apart l ->
  let r := TestMemoryPool (Z.of_nat (length l)) p m in
  fst (fst r) = Ok tt /\
  chain (snd r) (m_FreeList (snd (fst r))) (rev l).
Proof. exact (TestMemoryPool_chain p m l). Qed.

Lemma TestMemoryPool_reverses_free_list_witness :
  let p := {| m_Pool := 4096; m_FreeList := 4096; m_BlockCount := 2 |} in
  let m := store_ptr (store_ptr zeroed 4096 4160) 4160 0 in
  chain m (m_FreeList p) [4096; 4160] /\
  fst (fst (TestMemoryPool (Z.of_nat (length [4096; 4160])) p m)) = Ok tt.
Proof.
  cbv zeta.
  assert (Hchain : chain (store_ptr (store_ptr zeroed 4096 4160) 4160 0)
                         4096 [4096; 4160]).
  { cbn [chain]. repeat split; unfold nullptr; lia. }
  split; [exact Hchain|].
  refine (proj1 (TestMemoryPool_reverses_free_list
                   {| m_Pool := 4096; m_FreeList := 4096; m_BlockCount := 2 |}
                   _ [4096; 4160] Hchain _ _)).
  - repeat constructor; unfold block_ok; rewrite ?modulus_eq; lia.
  - repeat constructor. unfold apart, sizeof_ptr. lia.
Defined.



End TesterFacts.

(** ** MemoryPool: the freshly constructed pool *)

Module FreshPoolFacts.
Import Mem MemFacts MemoryPool FreeList SizeTFacts FreeListFacts.
Import AllocatorTester TesterFacts.

Section Fresh.

Variables (sizeof_T pool : Z).
Hypothesis Hsize : sizeof_ptr <= sizeof_T.
Hypothesis Hpool : 0 < pool.

Local Abbreviation slot := (MemoryPool.block_at sizeof_T pool).
Local Abbreviation slots := (fun i k : nat => map (fun j => slot (Z.of_nat j)) (seq i k)).

Lemma threaded_chain (n : nat) (m : memory) :
  threaded sizeof_T pool (Z.of_nat n) m ->
  forall k i : nat,
    (i + k = n)%nat ->
    chain m (head_at sizeof_T pool (Z.of_nat n) (Z.of_nat i)) (slots i k).
Proof.
  intros Hthr. induction k as [|k IH]; intros i Hik; cbn [seq map chain].
  - unfold head_at. destruct (Z.ltb_spec (Z.of_nat i) (Z.of_nat n)); [lia|].
    reflexivity.
  - assert (Hh : head_at sizeof_T pool (Z.of_nat n) (Z.of_nat i)
                 = slot (Z.of_nat i)).
    { unfold head_at.
      destruct (Z.ltb_spec (Z.of_nat i) (Z.of_nat n)); [reflexivity | lia]. }
    split; [exact Hh|]. split.
    + pose proof (PoolFacts.slot_pos sizeof_T pool Hsize Hpool (Z.of_nat i)
                    ltac:(lia)). unfold nullptr. lia.
    + rewrite (Hthr (Z.of_nat i)) by lia. unfold next_of.
      replace (Z.of_nat i + 1) with (Z.of_nat (S i)) by lia.
      apply IH. lia.
Qed.

Lemma slots_ok (n : nat) :
  slot (Z.of_nat n) < SizeT.modulus ->
  forall k i : nat, (i + k <= n)%nat -> Forall block_ok (slots i k).
Proof.
  intros Htop k i Hik. apply Forall_forall. intros a Ha.
  apply in_map_iff in Ha. destruct Ha as (j & <- & Hj). apply in_seq in Hj.
  pose proof (PoolFacts.slot_pos sizeof_T pool Hsize Hpool (Z.of_nat j)
                ltac:(lia)).
  pose proof (PoolFacts.slot_mono sizeof_T pool Hsize
                (Z.of_nat j) (Z.of_nat n) ltac:(lia)).
  unfold block_ok. lia.
Qed.

Lemma slots_apart k : forall i : nat, ForallOrdPairs apart (slots i k).
Proof.
  induction k as [|k IH]; intros i; cbn [seq map]; constructor; [|apply IH].
  apply Forall_forall. intros a Ha.
  apply in_map_iff in Ha. destruct Ha as (j & <- & Hj). apply in_seq in Hj.
  left. apply (PoolFacts.slot_apart sizeof_T pool Hsize). lia.
Qed.

(** The free list of a fresh pool of [n >= 1] blocks. *)
Lemma ctor_chain (n : nat) (m0 : memory) :
  (1 <= n)%nat ->
  pool + Z.of_nat n * sizeof_T < SizeT.modulus ->
  let r := ctor sizeof_T pool (Z.of_nat n) m0 in
  chain (snd r) (m_FreeList (fst r)) (slots 0%nat n).
Proof.
  intros Hn Hfit. cbv zeta.
  destruct (PoolFacts.ctor_threaded sizeof_T pool Hsize Hpool n m0 Hn Hfit)
    as (Hp & Hthr).
  rewrite Hp. cbn [m_FreeList].
  pose proof (threaded_chain n _ Hthr n 0 ltac:(lia)) as Hchain.
  replace (head_at sizeof_T pool (Z.of_nat n) (Z.of_nat 0)) with pool in Hchain;
    [exact Hchain|].
  unfold head_at. destruct (Z.ltb_spec (Z.of_nat 0) (Z.of_nat n)); [|lia].
  unfold block_at. cbn. ring.
Qed.

(** The threading loop writes nothing below the cursor and nothing from the
    last slot on. *)
Lemma link_frame (n : Z) fuel : forall i m x,
  1 <= i <= n ->
  n - i <= Z.of_nat fuel ->
  slot n < SizeT.modulus ->
  x < slot (i - 1) \/ slot (n - 1) <= x ->
  snd (link sizeof_T pool n fuel i (slot (i - 1)) m) x = m x.
Proof.
  induction fuel as [|fuel IH]; intros i m x Hi Hfuel Htop Hx; cbn [link];
    [reflexivity|].
  destruct (Z.ltb_spec i n) as [Hlt|Hge]; [|reflexivity].
  pose proof (PoolFacts.index_below_modulus sizeof_T pool Hsize Hpool n
                ltac:(lia) Htop) as Hn.
  pose proof (PoolFacts.slot_mono sizeof_T pool Hsize i n ltac:(lia)).
  pose proof (PoolFacts.slot_pos sizeof_T pool Hsize Hpool i ltac:(lia)).
  assert (Hslot : MemoryPool.slot sizeof_T pool i = slot i)
    by (apply (PoolFacts.slot_no_wrap sizeof_T pool Hsize Hpool); lia).
  assert (Hnext : SizeT.add i 1 = i + 1)
    by (unfold SizeT.add; apply wrap_small; lia).
  cbv zeta. rewrite Hslot, Hnext, load_store_ptr_same.
  rewrite (wrap_small (slot i)) by lia.
  pose proof (IH (i + 1) (store_ptr m (slot (i - 1)) (slot i)) x
                ltac:(lia) ltac:(lia) Htop) as IH'.
  replace (i + 1 - 1) with i in IH' by lia.
  pose proof (PoolFacts.slot_apart sizeof_T pool Hsize (i - 1) i
                ltac:(lia)) as Hstep.
  rewrite IH' by (unfold sizeof_ptr in *; lia).
  apply store_ptr_outside.
  destruct Hx as [Hx|Hx]; [left; exact Hx|right].
  pose proof (PoolFacts.slot_apart sizeof_T pool Hsize (i - 1) (n - 1)
                ltac:(lia)). lia.
Qed.

End Fresh.

(** X1.  Exhaustion of a non-empty pool, and what follows it: on a fresh
    pool of [n >= 1] blocks (element at least pointer-sized), of [n + k]
    calls of [Allocate] in a row the first [n] return slot 0, ..., slot
    [n - 1] and each of the [k] others throws [bad_alloc]. *)
Theorem fresh_pool_exhaustion
    (sizeof_T pool : Z) (n k : nat) (m0 : memory) :
  sizeof_ptr <= sizeof_T ->
  0 < pool ->
  (1 <= n)%nat ->
  pool + Z.of_nat n * sizeof_T < SizeT.modulus ->
  let fresh := ctor sizeof_T pool (Z.of_nat n) m0 in
  fst (fst (Allocate_n (n + k) (fst fresh) (snd fresh))) =
    map (fun i => Ok (pool + Z.of_nat i * sizeof_T)) (seq 0 n)
    ++ repeat (Throw bad_alloc) k.
Proof.
  intros Hsize Hpool Hn Hfit. cbv zeta.
  pose proof (ctor_chain sizeof_T pool Hsize Hpool n m0 Hn Hfit) as Hchain.
  cbv zeta in Hchain.
  destruct (Allocate_n_chain (n + k) _ _ _ Hchain) as (Hrs & _).
  rewrite Hrs. rewrite length_map, length_seq.
  rewrite firstn_all2 by (rewrite length_map, length_seq; lia).
  rewrite map_map. f_equal. f_equal. lia.
Qed.

Lemma fresh_pool_exhaustion_witness :
  sizeof_ptr <= 64 /\ 0 < 4096 /\ (1 <= 3)%nat /\
  4096 + Z.of_nat 3 * 64 < SizeT.modulus /\
  fst (fst (Allocate_n (3 + 2) (fst (ctor 64 4096 (Z.of_nat 3) zeroed))
                               (snd (ctor 64 4096 (Z.of_nat 3) zeroed)))) =
    map (fun i => Ok (4096 + Z.of_nat i * 64)) (seq 0 3)
    ++ repeat (Throw bad_alloc) 2.
Proof.
  assert (H1 : sizeof_ptr <= 64) by (unfold sizeof_ptr; lia).
  assert (H2 : 0 < 4096) by lia.
  assert (H3 : (1 <= 3)%nat) by lia.
  assert (H4 : 4096 + Z.of_nat 3 * 64 < SizeT.modulus)
    by (rewrite modulus_eq; lia).
  split; [exact H1 | split; [exact H2 | split; [exact H3 | split; [exact H4|]]]].
  exact (fresh_pool_exhaustion 64 4096 3 2 zeroed H1 H2 H3 H4).
Defined.

(** X2.  The constructor stays inside its storage: for [n >= 1] blocks of at
    least pointer size, no byte outside
    [[m_Pool, m_Pool + n * sizeof(T))] is changed. *)
Theorem ctor_writes_inside_storage
    (sizeof_T pool : Z) (n : nat) (m0 : memory) (x : Z) :
  sizeof_ptr <= sizeof_T ->
  0 < pool ->
  (1 <= n)%nat ->
  pool + Z.of_nat n * sizeof_T < SizeT.modulus ->
  x < pool \/ pool + Z.of_nat n * sizeof_T <= x ->
  snd (ctor sizeof_T pool (Z.of_nat n) m0) x = m0 x.
Proof.
  intros Hsize Hpool Hn Hfit Hx. unfold ctor.
  assert (Hslot0 : pool = block_at sizeof_T pool (1 - 1))
    by (unfold block_at; ring).
  pose proof (PoolFacts.link_spec sizeof_T pool Hsize Hpool (Z.of_nat n)
                (Z.to_nat (Z.of_nat n)) 1 m0 ltac:(lia) ltac:(lia) Hfit) as Hl.
  pose proof (link_frame sizeof_T pool Hsize Hpool (Z.of_nat n)
                (Z.to_nat (Z.of_nat n)) 1 m0 x ltac:(lia) ltac:(lia) Hfit) as Hf.
  cbv zeta in Hl. rewrite <- Hslot0 in Hl, Hf.
  destruct (link sizeof_T pool (Z.of_nat n) (Z.to_nat (Z.of_nat n)) 1 pool m0)
    as [block m1].
  cbn [fst snd] in *. destruct Hl as (-> & _).
  pose proof (PoolFacts.slot_mono sizeof_T pool Hsize 0 (Z.of_nat n - 1)
                ltac:(lia)) as Hlo.
  pose proof (PoolFacts.slot_succ sizeof_T pool (Z.of_nat n - 1)) as Hsucc.
  replace (Z.of_nat n - 1 + 1) with (Z.of_nat n) in Hsucc by lia.
  unfold block_at, sizeof_ptr in *.
  rewrite store_ptr_outside by (unfold sizeof_ptr; lia).
  apply Hf. lia.
Qed.

Lemma ctor_writes_inside_storage_witness :
  sizeof_ptr <= 64 /\ 0 < 4096 /\ (1 <= 3)%nat /\
  4096 + Z.of_nat 3 * 64 < SizeT.modulus /\
  (4288 < 4096 \/ 4096 + Z.of_nat 3 * 64 <= 4288) /\
  snd (ctor 64 4096 (Z.of_nat 3) zeroed) 4288 = zeroed 4288.
Proof.
  assert (H1 : sizeof_ptr <= 64) by (unfold sizeof_ptr; lia).
  assert (H2 : 0 < 4096) by lia.
  assert (H3 : (1 <= 3)%nat) by lia.
  assert (H4 : 4096 + Z.of_nat 3 * 64 < SizeT.modulus)
    by (rewrite modulus_eq; lia).
  assert (H5 : 4288 < 4096 \/ 4096 + Z.of_nat 3 * 64 <= 4288) by lia.
  split; [exact H1 | split; [exact H2 | split; [exact H3 |
    split; [exact H4 | split; [exact H5|]]]]].
  exact (ctor_writes_inside_storage 64 4096 3 zeroed 4288 H1 H2 H3 H4 H5).
Defined.

(** X5.  The benchmark of [main], for any [n >= 1]: on a fresh pool of [n]
    blocks, [TestMemoryPool] with [n] requests succeeds and leaves the free
    list in descending slot order; a second run succeeds as well and puts
    the list back in ascending order. *)
Theorem benchmark_twice_restores_order
    (sizeof_T pool : Z) (n : nat) (m0 : memory) :
  sizeof_ptr <= sizeof_T ->
  0 < pool ->
  (1 <= n)%nat ->
  pool + Z.of_nat n * sizeof_T < SizeT.modulus ->
  let fresh := ctor sizeof_T pool (Z.of_nat n) m0 in
  let addrs := map (fun i => pool + Z.of_nat i * sizeof_T) (seq 0 n) in
  let once := TestMemoryPool (Z.of_nat n) (fst fresh) (snd fresh) in
  let twice := TestMemoryPool (Z.of_nat n) (snd (fst once)) (snd once) in
  fst (fst once) = Ok tt /\
  chain (snd once) (m_FreeList (snd (fst once))) (rev addrs) /\
  fst (fst twice) = Ok tt /\
  chain (snd twice) (m_FreeList (snd (fst twice))) addrs.
Proof.
  intros Hsize Hpool Hn Hfit. cbv zeta.
  pose proof (ctor_chain sizeof_T pool Hsize Hpool n m0 Hn Hfit) as Hchain.
  cbv zeta in Hchain.
  pose proof (slots_ok sizeof_T pool Hsize Hpool n Hfit n 0 ltac:(lia)) as Hok.
  pose proof (slots_apart sizeof_T pool Hsize n 0) as Hsep.
  set (addrs := map (fun j => block_at sizeof_T pool (Z.of_nat j)) (seq 0 n)) in *.
  change (map (fun i => pool + Z.of_nat i * sizeof_T) (seq 0 n)) with addrs.
  assert (Hlen : length addrs = n)
    by (unfold addrs; now rewrite length_map, length_seq).
  pose proof (TestMemoryPool_chain _ _ addrs Hchain Hok Hsep)
    as Honce.
  cbv zeta in Honce. rewrite Hlen in Honce. destruct Honce as (Hr1 & Hc1).
  split; [exact Hr1|]. split; [exact Hc1|].
  pose proof (TestMemoryPool_chain _ _ (rev addrs) Hc1
                (Forall_rev Hok) (FOP_rev apart addrs apart_sym Hsep))
    as Htwice.
  cbv zeta in Htwice. rewrite length_rev, Hlen, rev_involutive in Htwice.
  exact Htwice.
Qed.

Lemma benchmark_twice_restores_order_witness :
  sizeof_ptr <= 64 /\ 0 < 4096 /\ (1 <= 3)%nat /\
  4096 + Z.of_nat 3 * 64 < SizeT.modulus /\
  fst (fst (TestMemoryPool (Z.of_nat 3) (fst (ctor 64 4096 (Z.of_nat 3) zeroed))
                           (snd (ctor 64 4096 (Z.of_nat 3) zeroed)))) = Ok tt.
Proof.
  assert (H1 : sizeof_ptr <= 64) by (unfold sizeof_ptr; lia).
  assert (H2 : 0 < 4096) by lia.
  assert (H3 : (1 <= 3)%nat) by lia.
  assert (H4 : 4096 + Z.of_nat 3 * 64 < SizeT.modulus)
    by (rewrite modulus_eq; lia).
  split; [exact H1 | split; [exact H2 | split; [exact H3 | split; [exact H4|]]]].
  exact (proj1 (benchmark_twice_restores_order 64 4096 3 zeroed H1 H2 H3 H4)).
Defined.

End FreshPoolFacts.

(** ** MemoryPool: taking a block and giving it straight back *)

Module RoundTripFacts.
Import Mem MemFacts MemoryPool FreeList.

Lemma encode_decode_le bs :
  Forall (fun b => 0 <= b < 256) bs ->
  encode_le (length bs) (decode_le bs) = bs.
Proof.
  induction 1 as [|b bs Hb _ IH]; [reflexivity|].
  cbn [length encode_le decode_le].
  rewrite (Z.mul_comm 256), Z_mod_plus_full, Z_div_plus_full by lia.
  rewrite Z.mod_small, Z.div_small by exact Hb.
  cbn [Z.add]. now rewrite IH.
Qed.

Lemma length_load_bytes k : forall m a, length (load_bytes m a k) = k.
Proof. induction k; intros; cbn; [reflexivity | now rewrite IHk]. Qed.

Lemma load_bytes_are_bytes k : forall m a,
  byte_memory m -> Forall (fun b => 0 <= b < 256) (load_bytes m a k).
Proof.
  induction k; intros m a Hm; cbn [load_bytes]; constructor; [apply Hm|].
  now apply IHk.
Qed.

(** Writing back the bytes just read changes nothing. *)
Lemma store_load_bytes_id k : forall m1 m a x,
  (forall y, m1 y = m y) ->
  store_bytes m1 a (load_bytes m a k) x = m x.
Proof.
  induction k as [|k IH]; intros m1 m a x Hsame; cbn [load_bytes store_bytes];
    [apply Hsame|].
  apply IH. intros y. unfold write.
  destruct (Z.eqb_spec y a) as [->|_]; [reflexivity | apply Hsame].
Qed.

(** X8.  [Allocate] followed by [Deallocate] of the block it returned puts
    the pool back exactly as it was: the same object and, byte for byte, the
    same memory. *)
Theorem Allocate_then_Deallocate_restores_pool
    (p : t) (m : memory) (block : Z) (p1 : t) (m1 : memory) :
  byte_memory m ->
  Allocate p m = (Ok block, p1, m1) ->
  fst (Deallocate p1 block m1) = p /\
  forall x, snd (Deallocate p1 block m1) x = m x.
Proof.
  intros Hbytes Hcall. unfold Allocate in Hcall.
  destruct (m_FreeList p =? nullptr); [discriminate|].
  inversion Hcall; subst block p1 m1; clear Hcall.
  unfold Deallocate. cbn [fst snd set_FreeList m_FreeList m_Pool m_BlockCount].
  split; [destruct p; reflexivity|].
  intros x. unfold store_ptr, load_ptr.
  rewrite <- (length_load_bytes ptr_bytes m (m_FreeList p)) at 1.
  rewrite encode_decode_le by (apply load_bytes_are_bytes, Hbytes).
  apply store_load_bytes_id. reflexivity.
Qed.

Lemma Allocate_then_Deallocate_restores_pool_witness :
  let p := {| m_Pool := 4096; m_FreeList := 4096; m_BlockCount := 2 |} in
  byte_memory zeroed /\
  Allocate p zeroed = (Ok 4096, set_FreeList p 0, zeroed) /\
  fst (Deallocate (set_FreeList p 0) 4096 zeroed) = p.
Proof.
  cbv zeta.
  assert (Hbytes : byte_memory zeroed) by (intros x; unfold zeroed; lia).
  assert (Hcall : Allocate
            {| m_Pool := 4096; m_FreeList := 4096; m_BlockCount := 2 |} zeroed =
          (Ok 4096,
           set_FreeList
             {| m_Pool := 4096; m_FreeList := 4096; m_BlockCount := 2 |} 0,
           zeroed)) by reflexivity.
  split; [exact Hbytes | split; [exact Hcall|]].
  exact (proj1 (Allocate_then_Deallocate_restores_pool _ _ _ _ _ Hbytes Hcall)).
Defined.

End RoundTripFacts.

(** ** MemoryArena: padding, disjoint blocks, markers *)

Module ArenaMoreFacts.
Import SizeT SizeTFacts MemoryArena RoundUp ArenaFacts StackAllocator.

(** X10.  Alignment costs fewer than [alignment] bytes: in every reachable
    state the padding that [allocate] inserts for [alignment = 2^k] is in
    [[0, 2^k)]; hence a request is certain to succeed when
    [offset + (alignment - 1) + size <= capacity], and it then returns
    [buffer + offset + adjustment]. *)
Theorem padding_is_less_than_alignment (a : t) (k size : Z) :
  reachable a ->
  0 <= k < 64 ->
  0 <= size <= PTRDIFF_MAX ->
  0 <= adjustment a (2 ^ k) < 2 ^ k /\
  (offset a + (2 ^ k - 1) + size <= capacity a ->
   fst (allocate a size (2 ^ k)) =
     Ok (buffer a + offset a + adjustment a (2 ^ k))).
Proof.
  intros Hreach Hk Hsize. pose proof (reachable_wf a Hreach) as Hwf.
  pose proof (pow2_pos k ltac:(lia)) as Hpos.
  pose proof (round_up_bounds (buffer a + offset a) (2 ^ k) Hpos) as Hb.
  rewrite (adjustment_eq a k Hwf Hk). split; [lia|].
  intros Hroom. rewrite (allocate_eq a k Hwf Hk). cbv zeta.
  rewrite (used_no_wrap a k Hwf Hk) by exact Hsize.
  destruct (Z.ltb_spec (capacity a)
              (round_up (buffer a + offset a) (2 ^ k) - buffer a + size));
    [lia|].
  cbn [fst]. f_equal. ring.
Qed.

Lemma padding_is_less_than_alignment_witness :
  reachable (ctor 4100 64) /\ 0 <= 4 < 64 /\ 0 <= 8 <= PTRDIFF_MAX /\
  0 <= adjustment (ctor 4100 64) (2 ^ 4) < 2 ^ 4.
Proof.
  assert (Hreach : reachable (ctor 4100 64)).
  { constructor. unfold user_block. rewrite PTRDIFF_MAX_eq. lia. }
  assert (Hk : 0 <= 4 < 64) by lia.
  assert (Hsize : 0 <= 8 <= PTRDIFF_MAX) by (rewrite PTRDIFF_MAX_eq; lia).
  split; [exact Hreach | split; [exact Hk | split; [exact Hsize|]]].
  exact (proj1 (padding_is_less_than_alignment _ 4 8 Hreach Hk Hsize)).
Defined.

Lemma grants_disjoint_wf reqs : forall a,
  wf a -> Forall sane_request reqs ->
  ForallOrdPairs (fun g1 g2 => g_ptr g1 + g_size g1 <= g_ptr g2)
                 (grants a reqs) /\
  Forall (fun g => buffer a + offset a <= g_ptr g /\
                   g_ptr g + g_size g <= buffer a + capacity a)
         (grants a reqs).
Proof.
  induction reqs as [|[size al] reqs IH]; intros a Hwf Hsane;
    [split; constructor|].
  inversion Hsane as [|? ? (Hsize & k & Hk & Hal) Hrest]; subst.
  cbn [fst snd] in Hsize, Hal. subst al. cbn [grants].
  destruct (allocate a size (2 ^ k)) as [[p|e] a'] eqn:Hcall.
  - destruct (allocate_Ok_inv a k Hwf Hk size p a' Hsize Hcall)
      as (Hp & Hend & Ha').
    destruct (allocate_Ok_wf a k size p a' Hwf Hk Hsize Hcall)
      as (Hwf' & Hbuf & Hoff).
    destruct (IH a' Hwf' Hrest) as (Hpairs & Hin).
    pose proof (round_up_cur_bounds a k Hwf Hk) as Hr.
    assert (Hcap : capacity a' = capacity a) by (subst a'; reflexivity).
    rewrite Hbuf, Hoff, Hcap in Hin. split.
    + constructor; [|exact Hpairs].
      eapply Forall_impl; [|exact Hin]. cbn [g_ptr g_size]. intros g Hg. lia.
    + constructor; [cbn [g_ptr g_size]; lia|].
      eapply Forall_impl; [|exact Hin]. cbn beta. intros g Hg. lia.
  - apply allocate_Throw_inv in Hcall. destruct Hcall as (_ & ->).
    apply IH; assumption.
Qed.

(** X11.  Blocks handed out between two resets never overlap and never leave
    the buffer: for requests with power-of-two alignment and at most
    [PTRDIFF_MAX] bytes, every block granted ends before every later one
    starts, and each lies in [[buffer + offset, buffer + capacity]]. *)
Theorem grants_are_disjoint (a : t) (reqs : list (Z * Z)) :
  reachable a ->
  Forall sane_request reqs ->
  ForallOrdPairs (fun g1 g2 => g_ptr g1 + g_size g1 <= g_ptr g2)
                 (grants a reqs) /\
  Forall (fun g => buffer a + offset a <= g_ptr g /\
                   g_ptr g + g_size g <= buffer a + capacity a)
         (grants a reqs).
Proof.
  intros Hreach Hsane. apply grants_disjoint_wf; [|exact Hsane].
  apply reachable_wf, Hreach.
Qed.

Lemma grants_are_disjoint_witness :
  reachable (ctor 4100 64) /\
  Forall sane_request [(8, 16); (24, 8)] /\
  ForallOrdPairs (fun g1 g2 => g_ptr g1 + g_size g1 <= g_ptr g2)
                 (grants (ctor 4100 64) [(8, 16); (24, 8)]).
Proof.
  assert (Hreach : reachable (ctor 4100 64)).
  { constructor. unfold user_block. rewrite PTRDIFF_MAX_eq. lia. }
  assert (Hsane : Forall sane_request [(8, 16); (24, 8)]).
  { repeat constructor; cbn [fst snd]; rewrite ?PTRDIFF_MAX_eq; try lia.
    - exists 4. split; [lia | reflexivity].
    - exists 3. split; [lia | reflexivity]. }
  split; [exact Hreach | split; [exact Hsane|]].
  exact (proj1 (grants_are_disjoint _ _ Hreach Hsane)).
Defined.

(** X12.  For a request of at most [PTRDIFF_MAX] bytes nothing wraps: in
    every reachable state [allocate(size, 2^k)] throws exactly when
    [offset + adjustment + size > capacity] as integers, and otherwise
    returns [buffer + offset + adjustment] and advances [offset] by
    [adjustment + size]. *)
Theorem allocate_without_overflow (a : t) (k size : Z) :
  reachable a ->
  0 <= k < 64 ->
  0 <= size <= PTRDIFF_MAX ->
  allocate a size (2 ^ k) =
    if capacity a <? offset a + adjustment a (2 ^ k) + size
    then (Throw bad_alloc, a)
    else (Ok (buffer a + offset a + adjustment a (2 ^ k)),
          {| buffer := buffer a; capacity := capacity a;
             offset := offset a + adjustment a (2 ^ k) + size |}).
Proof.
  intros Hreach Hk Hsize. pose proof (reachable_wf a Hreach) as Hwf.
  rewrite (allocate_eq a k Hwf Hk), (adjustment_eq a k Hwf Hk). cbv zeta.
  rewrite (used_no_wrap a k Hwf Hk) by exact Hsize.
  replace (offset a + (round_up (buffer a + offset a) (2 ^ k)
                       - (buffer a + offset a)) + size)
    with (round_up (buffer a + offset a) (2 ^ k) - buffer a + size) by ring.
  replace (buffer a + offset a + (round_up (buffer a + offset a) (2 ^ k)
                                  - (buffer a + offset a)))
    with (round_up (buffer a + offset a) (2 ^ k)) by ring.
  reflexivity.
Qed.

Lemma allocate_without_overflow_witness :
  reachable (ctor 4100 64) /\ 0 <= 4 < 64 /\ 0 <= 8 <= PTRDIFF_MAX /\
  allocate (ctor 4100 64) 8 (2 ^ 4) =
    (Ok 4112, {| buffer := 4100; capacity := 64; offset := 20 |}).
Proof.
  assert (Hreach : reachable (ctor 4100 64)).
  { constructor. unfold user_block. rewrite PTRDIFF_MAX_eq. lia. }
  assert (Hk : 0 <= 4 < 64) by lia.
  assert (Hsize : 0 <= 8 <= PTRDIFF_MAX) by (rewrite PTRDIFF_MAX_eq; lia).
  split; [exact Hreach | split; [exact Hk | split; [exact Hsize|]]].
  rewrite (allocate_without_overflow _ 4 8 Hreach Hk Hsize). reflexivity.
Defined.

(** X13.  [freeToMarker(getMarker())] undoes whatever happened in between:
    after any sequence of [allocate] and [reset] calls, freeing to a marker
    taken before them restores the arena exactly, so the next [allocate]
    behaves as it would have at the time the marker was taken. *)
Theorem freeToMarker_undoes_calls (a : t) (cs : list call) :
  freeToMarker (run a cs) (getMarker a) = a /\
  forall size alignment,
    allocate (freeToMarker (run a cs) (getMarker a)) size alignment =
    allocate a size alignment.
Proof.
  assert (Hback : freeToMarker (run a cs) (getMarker a) = a).
  { destruct (run_block cs a) as (Hb & Hc).
    unfold freeToMarker, getMarker. cbn [StackMarker.offset].
    rewrite Hb, Hc. destruct a; reflexivity. }
  split; [exact Hback|]. intros size alignment. now rewrite Hback.
Qed.

End ArenaMoreFacts.

(** ** The plain Arena *)

Module PlainArenaFacts.
Import SizeT SizeTFacts ArenaRun.

Lemma plain_allocate_eq a size :
  sound a -> 0 <= size <= PTRDIFF_MAX ->
  Arena.allocate a size =
    if Arena.capacity a <? Arena.offset a + size then (Throw bad_alloc, a)
    else (Ok (Arena.memory a + Arena.offset a),
          {| Arena.memory := Arena.memory a; Arena.capacity := Arena.capacity a;
             Arena.offset := Arena.offset a + size |}).
Proof.
  intros (Hmem & Hoff & Htop) Hsize. rewrite PTRDIFF_MAX_eq in *.
  unfold Arena.allocate, add.
  rewrite (wrap_small (Arena.offset a + size)) by (rewrite modulus_eq; lia).
  rewrite (wrap_small (Arena.memory a + Arena.offset a))
    by (rewrite modulus_eq; lia).
  reflexivity.
Qed.

Lemma total_nonneg sizes :
  Forall (fun s => 0 <= s <= PTRDIFF_MAX) sizes -> 0 <= total sizes.
Proof.
  induction 1 as [|s sizes Hs _ IH]; cbn [total fold_right]; [lia|].
  unfold total in IH. lia.
Qed.

(** X15.  The plain arena has no overhead and no fragmentation: a batch of
    requests (each of at most [PTRDIFF_MAX] bytes) is served completely, as
    back-to-back blocks starting at [memory + offset], exactly when the sum
    of the sizes fits in the remaining capacity; the cursor then advances by
    that sum. *)
Theorem batch_served_iff_total_fits (a : Arena.t) (sizes : list Z) :
  sound a ->
  Forall (fun s => 0 <= s <= PTRDIFF_MAX) sizes ->
  (fst (serve a sizes) = map Ok (starts (Arena.memory a + Arena.offset a) sizes)
   <-> Arena.offset a + total sizes <= Arena.capacity a) /\
  (Arena.offset a + total sizes <= Arena.capacity a ->
   Arena.offset (snd (serve a sizes)) = Arena.offset a + total sizes).
Proof.
  intros Hsound Hsizes. revert a Hsound.
  induction Hsizes as [|s sizes Hs Hrest IH]; intros a Hsound.
  - cbn [serve starts map total fold_right fst snd].
    destruct Hsound as (_ & Hoff & _). split; [split; [lia | reflexivity] | lia].
  - pose proof (total_nonneg sizes Hrest) as Htot.
    cbn [serve starts map total fold_right].
    fold (total sizes). rewrite (plain_allocate_eq a s Hsound Hs).
    destruct (Z.ltb_spec (Arena.capacity a) (Arena.offset a + s)) as [Hfull|Hfits].
    + destruct (serve a sizes) as [rs a2]. cbn [fst snd].
      split; [split; [discriminate | lia] | lia].
    + assert (Hsound1 : sound {| Arena.memory := Arena.memory a;
                                 Arena.capacity := Arena.capacity a;
                                 Arena.offset := Arena.offset a + s |}).
      { destruct Hsound as (Hmem & Hoff & Htop).
        unfold sound. cbn [Arena.memory Arena.capacity Arena.offset]. lia. }
      destruct (IH _ Hsound1) as (Hiff & Hadv).
      cbn [Arena.memory Arena.capacity Arena.offset] in Hiff, Hadv.
      destruct (serve _ sizes) as [rs a2]. cbn [fst snd] in *.
      replace (Arena.memory a + Arena.offset a + s)
        with (Arena.memory a + (Arena.offset a + s)) by ring.
      split.
      * split.
        -- intros Heq. inversion Heq as [Hrs]. apply Hiff in Hrs. lia.
        -- intros Hfit. f_equal. apply Hiff. lia.
      * intros Hfit. rewrite Hadv by lia. ring.
Qed.

Lemma batch_served_iff_total_fits_witness :
  sound (Arena.ctor 4096 1024) /\
  Forall (fun s => 0 <= s <= PTRDIFF_MAX) [400; 600] /\
  Arena.offset (snd (serve (Arena.ctor 4096 1024) [400; 600])) =
    Arena.offset (Arena.ctor 4096 1024) + total [400; 600].
Proof.
  assert (Hsound : sound (Arena.ctor 4096 1024)).
  { unfold sound, Arena.ctor.
    cbn [Arena.memory Arena.capacity Arena.offset].
    rewrite PTRDIFF_MAX_eq. lia. }
  assert (Hsizes : Forall (fun s => 0 <= s <= PTRDIFF_MAX) [400; 600])
    by (repeat constructor; rewrite ?PTRDIFF_MAX_eq; lia).
  split; [exact Hsound | split; [exact Hsizes|]].
  apply (proj2 (batch_served_iff_total_fits _ _ Hsound Hsizes)).
  cbn. lia.
Defined.

(** X14.  [Arena] is [MemoryArena] at alignment 1: after the same history of
    [allocate] and [reset] calls the two hold the same cursor, and the next
    [allocate(size)] gives the same outcome on both. *)
Theorem plain_arena_is_alignment_one
    (a : MemoryArena.t) (cs : list call) (size : Z) :
  MemoryArena.wf a ->
  let b := MemoryArena.run a (map lift cs) in
  MemoryArena.plain b = run (MemoryArena.plain a) cs /\
  Arena.allocate (run (MemoryArena.plain a) cs) size =
    (fst (MemoryArena.allocate b size 1),
     MemoryArena.plain (snd (MemoryArena.allocate b size 1))).
Proof.
  intros Hwf. cbv zeta.
  assert (Hrun : forall cs' a',
            MemoryArena.wf a' ->
            MemoryArena.wf (MemoryArena.run a' (map lift cs')) /\
            MemoryArena.plain (MemoryArena.run a' (map lift cs'))
              = run (MemoryArena.plain a') cs').
  { induction cs' as [|c cs' IH]; intros a' Hwf'; [now split|].
    cbn [map run MemoryArena.run fold_left].
    pose proof (ArenaFacts.step_wf a' (lift c) Hwf') as Hstep.
    destruct (IH _ Hstep) as (Hwf2 & Heq). split; [exact Hwf2|].
    unfold MemoryArena.run, run in *. rewrite Heq. f_equal.
    destruct c as [s|]; cbn [lift step MemoryArena.step]; [|reflexivity].
    rewrite (ArenaFacts.plain_allocate a' s Hwf'). reflexivity. }
  destruct (Hrun cs a Hwf) as (Hwfb & Heq).
  split; [exact Heq|].
  rewrite <- Heq. apply ArenaFacts.plain_allocate, Hwfb.
Qed.

Lemma plain_arena_is_alignment_one_witness :
  MemoryArena.wf (MemoryArena.ctor 4096 1024) /\
  MemoryArena.plain
    (MemoryArena.run (MemoryArena.ctor 4096 1024)
                     (map lift [plain_allocate_call 400; plain_reset_call]))
  = run (MemoryArena.plain (MemoryArena.ctor 4096 1024))
        [plain_allocate_call 400; plain_reset_call].
Proof.
  assert (Hwf : MemoryArena.wf (MemoryArena.ctor 4096 1024)).
  { unfold MemoryArena.wf, MemoryArena.user_block, MemoryArena.ctor.
    cbn [MemoryArena.buffer MemoryArena.capacity MemoryArena.offset].
    rewrite PTRDIFF_MAX_eq. lia. }
  split; [exact Hwf|].
  exact (proj1 (plain_arena_is_alignment_one _
                  [plain_allocate_call 400; plain_reset_call] 0 Hwf)).
Defined.

End PlainArenaFacts.

(** ** The C arena: alignment of the offset *)

Module CArenaFacts.
Import SizeT SizeTFacts MemoryArena RoundUp CArena.

Lemma align_up_eq o k :
  0 <= k < 64 -> 0 <= o -> o + 2 ^ k - 1 < modulus ->
  align_up o (2 ^ k) = round_up o (2 ^ k).
Proof.
  intros Hk Ho Htop. pose proof (pow2_pos k ltac:(lia)) as Hpos.
  unfold align_up. cbv zeta. unfold add. unfold sub at 1.
  rewrite wrap_add_r.
  replace (o + (2 ^ k - 1)) with (o + 2 ^ k - 1) by ring.
  rewrite (wrap_small (o + 2 ^ k - 1)) by lia.
  rewrite band_bnot_mask by lia. reflexivity.
Qed.

Lemma round_up_shift b x al :
  0 < al -> b mod al = 0 -> round_up (b + x) al = b + round_up x al.
Proof.
  intros Hal Hb. apply Z.mod_divide in Hb; [|lia]. destruct Hb as [t ->].
  unfold round_up.
  replace (t * al + x + al - 1) with (x + al - 1 + t * al) by ring.
  rewrite Z.div_add by lia. ring.
Qed.

Lemma round_up_le_half o k :
  0 <= k < 64 -> o <= 2 ^ 63 -> round_up o (2 ^ k) <= 2 ^ 63.
Proof.
  intros Hk Ho. apply round_up_least; [apply pow2_pos; lia | exact Ho |].
  apply pow2_divides_half, Hk.
Qed.

(** [arena_allocate] with its locals replaced by what they denote, for an
    arena whose block lies in the lower half of the address space (a null
    [base] included). *)
Lemma arena_allocate_eq a k n :
  0 <= base a -> 0 <= offset a <= size a ->
  base a + size a <= PTRDIFF_MAX + 1 ->
  0 <= k < 64 -> 0 <= n <= PTRDIFF_MAX ->
  arena_allocate a n (2 ^ k) =
    if size a <? round_up (offset a) (2 ^ k) + n then (NULL, a)
    else (base a + round_up (offset a) (2 ^ k),
          {| base := base a; size := size a;
             offset := round_up (offset a) (2 ^ k) + n |}).
Proof.
  intros Hbase Hoff Htop Hk Hn. rewrite PTRDIFF_MAX_eq in *.
  pose proof (pow2_pos k ltac:(lia)) as Hpos.
  pose proof (pow2_le_half k Hk) as Hhalf.
  pose proof (round_up_bounds (offset a) (2 ^ k) Hpos) as Hb.
  pose proof (round_up_le_half (offset a) k Hk ltac:(lia)) as Hr.
  unfold arena_allocate. cbv zeta.
  rewrite (align_up_eq (offset a) k Hk) by (rewrite ?modulus_eq; lia).
  unfold add.
  rewrite (wrap_small (round_up (offset a) (2 ^ k) + n))
    by (rewrite modulus_eq; lia).
  destruct (Z.ltb_spec (size a) (round_up (offset a) (2 ^ k) + n));
    [reflexivity|].
  rewrite (wrap_small (base a + round_up (offset a) (2 ^ k)))
    by (rewrite modulus_eq; lia).
  reflexivity.
Qed.

(** X16.  [align_up(offset, 2^k)] is the least multiple of [2^k] at or after
    [offset] as long as [offset + 2^k - 1] does not wrap; where it wraps, the
    result is that multiple minus [2^64], a value below [offset]. *)
Theorem align_up_rounds_up (o k : Z) :
  0 <= k < 64 ->
  0 <= o < modulus ->
  (o + 2 ^ k - 1 < modulus ->
   align_up o (2 ^ k) mod 2 ^ k = 0 /\
   o <= align_up o (2 ^ k) < o + 2 ^ k /\
   forall q, o <= q -> q mod 2 ^ k = 0 -> align_up o (2 ^ k) <= q) /\
  (modulus <= o + 2 ^ k - 1 ->
   align_up o (2 ^ k) = round_up o (2 ^ k) - modulus /\
   align_up o (2 ^ k) < o).
Proof.
  intros Hk Ho. pose proof (pow2_pos k ltac:(lia)) as Hpos.
  pose proof (pow2_le_half k Hk) as Hhalf.
  pose proof (round_up_bounds o (2 ^ k) Hpos) as Hb.
  split.
  - intros Htop. rewrite (align_up_eq o k Hk) by lia.
    split; [apply round_up_multiple|]. split; [exact Hb|].
    intros q. apply round_up_least, Hpos.
  - intros Hwrap.
    assert (Hal : align_up o (2 ^ k) = round_up o (2 ^ k) - modulus).
    { unfold align_up. cbv zeta. unfold add. unfold sub at 1.
      rewrite wrap_add_r.
      replace (o + (2 ^ k - 1)) with (o + 2 ^ k - 1) by ring.
      assert (Hw : wrap (o + 2 ^ k - 1) = o + 2 ^ k - 1 - modulus).
      { unfold wrap. symmetry. apply (Z.mod_unique _ _ 1); rewrite modulus_eq in *; lia. }
      rewrite Hw, band_bnot_mask by (rewrite modulus_eq in *; lia).
      unfold round_up. rewrite modulus_eq.
      replace (2 ^ 64) with (2 ^ (64 - k) * 2 ^ k)
        by (rewrite <- Z.pow_add_r by lia; f_equal; lia).
      replace (o + 2 ^ k - 1 - 2 ^ (64 - k) * 2 ^ k)
        with (o + 2 ^ k - 1 + (- 2 ^ (64 - k)) * 2 ^ k) by ring.
      rewrite Z.div_add by lia. ring. }
    split; [exact Hal|]. rewrite Hal, modulus_eq. lia.
Qed.

Lemma align_up_rounds_up_witness :
  0 <= 4 < 64 /\ 0 <= 100 < modulus /\
  (100 + 2 ^ 4 - 1 < modulus -> align_up 100 (2 ^ 4) mod 2 ^ 4 = 0).
Proof.
  assert (Hk : 0 <= 4 < 64) by lia.
  assert (Ho : 0 <= 100 < modulus) by (rewrite modulus_eq; lia).
  split; [exact Hk | split; [exact Ho|]].
  intros Htop.
  exact (proj1 (proj1 (align_up_rounds_up 100 4 Hk Ho) Htop)).
Defined.

(** X17.  [arena_allocate] on a live arena, for [alignment = 2^k] and at
    most [PTRDIFF_MAX] bytes: it returns [NULL] exactly when the aligned
    offset plus [n] exceeds [size], and then leaves the arena unchanged;
    otherwise it returns [base + aligned offset], never [NULL], and keeps
    the arena live with [offset = aligned offset + n]. *)
Theorem arena_allocate_null_iff_out_of_memory (a : t) (k n : Z) :
  live a ->
  0 <= k < 64 ->
  0 <= n <= PTRDIFF_MAX ->
  let aligned_offset := round_up (offset a) (2 ^ k) in
  let r := arena_allocate a n (2 ^ k) in
  (fst r = NULL <-> size a < aligned_offset + n) /\
  (fst r = NULL -> snd r = a) /\
  (fst r <> NULL ->
   fst r = base a + aligned_offset /\
   offset (snd r) = aligned_offset + n /\
   live (snd r)).
Proof.
  intros (Hbase & Hoff & Htop) Hk Hn. cbv zeta.
  pose proof (pow2_pos k ltac:(lia)) as Hpos.
  pose proof (round_up_bounds (offset a) (2 ^ k) Hpos) as Hb.
  rewrite (arena_allocate_eq a k n) by (try assumption; lia).
  destruct (Z.ltb_spec (size a) (round_up (offset a) (2 ^ k) + n))
    as [Hfull|Hfits]; cbn [fst snd].
  - split; [split; [intros; exact Hfull | reflexivity]|].
    split; [reflexivity | intros Hne; contradiction].
  - unfold NULL. split; [split; intros; lia|].
    split; [intros; lia|]. intros _.
    split; [reflexivity|]. split; [reflexivity|].
    unfold live. cbn [base size offset]. lia.
Qed.

Lemma arena_allocate_null_iff_out_of_memory_witness :
  live (arena_init 4096 1024) /\ 0 <= 3 < 64 /\ 0 <= 400 <= PTRDIFF_MAX /\
  (fst (arena_allocate (arena_init 4096 1024) 400 (2 ^ 3)) = NULL <->
   size (arena_init 4096 1024)
     < round_up (offset (arena_init 4096 1024)) (2 ^ 3) + 400).
Proof.
  assert (Hlive : live (arena_init 4096 1024)).
  { unfold live, arena_init. cbn [base size offset].
    rewrite PTRDIFF_MAX_eq. lia. }
  assert (Hk : 0 <= 3 < 64) by lia.
  assert (Hn : 0 <= 400 <= PTRDIFF_MAX) by (rewrite PTRDIFF_MAX_eq; lia).
  split; [exact Hlive | split; [exact Hk | split; [exact Hn|]]].
  exact (proj1 (arena_allocate_null_iff_out_of_memory _ 3 400 Hlive Hk Hn)).
Defined.

(** X18.  [arena_allocate] aligns the offset, not the address: a non-null
    result is congruent to [base] modulo the alignment, so it is a multiple
    of the alignment exactly when [base] is. *)
Theorem arena_allocate_alignment_is_that_of_base (a : t) (k n : Z) :
  live a ->
  0 <= k < 64 ->
  0 <= n <= PTRDIFF_MAX ->
  fst (arena_allocate a n (2 ^ k)) <> NULL ->
  fst (arena_allocate a n (2 ^ k)) mod 2 ^ k = base a mod 2 ^ k /\
  (fst (arena_allocate a n (2 ^ k)) mod 2 ^ k = 0 <-> base a mod 2 ^ k = 0).
Proof.
  intros (Hbase & Hoff & Htop) Hk Hn Hne.
  pose proof (pow2_pos k ltac:(lia)) as Hpos.
  assert (Hmod : fst (arena_allocate a n (2 ^ k)) mod 2 ^ k = base a mod 2 ^ k).
  { rewrite (arena_allocate_eq a k n) in * by (try assumption; lia).
    destruct (size a <? round_up (offset a) (2 ^ k) + n); cbn [fst] in *;
      [contradiction|].
    unfold round_up. rewrite (Z.mul_comm (2 ^ k)). apply Z_mod_plus_full. }
  split; [exact Hmod|]. rewrite Hmod. reflexivity.
Qed.

Lemma arena_allocate_alignment_is_that_of_base_witness :
  live (arena_init 4104 1024) /\ 0 <= 4 < 64 /\ 0 <= 32 <= PTRDIFF_MAX /\
  fst (arena_allocate (arena_init 4104 1024) 32 (2 ^ 4)) <> NULL /\
  fst (arena_allocate (arena_init 4104 1024) 32 (2 ^ 4)) mod 2 ^ 4
    = base (arena_init 4104 1024) mod 2 ^ 4.
Proof.
  assert (Hlive : live (arena_init 4104 1024)).
  { unfold live, arena_init. cbn [base size offset].
    rewrite PTRDIFF_MAX_eq. lia. }
  assert (Hk : 0 <= 4 < 64) by lia.
  assert (Hn : 0 <= 32 <= PTRDIFF_MAX) by (rewrite PTRDIFF_MAX_eq; lia).
  assert (Hne : fst (arena_allocate (arena_init 4104 1024) 32 (2 ^ 4)) <> NULL)
    by (vm_compute; discriminate).
  split; [exact Hlive | split; [exact Hk | split; [exact Hn |
    split; [exact Hne|]]]].
  exact (proj1 (arena_allocate_alignment_is_that_of_base _ 4 32
                  Hlive Hk Hn Hne)).
Defined.

(** X19.  When [base] is a multiple of the alignment the C arena and
    [MemoryArena::allocate] agree: the same address and the same new offset,
    with [NULL] where [MemoryArena] throws. *)
Theorem arena_allocate_agrees_with_MemoryArena (a : t) (k n : Z) :
  live a ->
  0 <= k < 64 ->
  0 <= n <= PTRDIFF_MAX ->
  base a mod 2 ^ k = 0 ->
  arena_allocate a n (2 ^ k) =
    match MemoryArena.allocate (as_MemoryArena a) n (2 ^ k) with
    | (Ok p, a') => (p, of_MemoryArena a')
    | (Throw _, _) => (NULL, a)
    end.
Proof.
  intros Hlive Hk Hn Haligned. pose proof (pow2_pos k ltac:(lia)) as Hpos.
  assert (Hwf : wf (as_MemoryArena a)).
  { destruct Hlive as (Hbase & Hoff & Htop).
    unfold wf, user_block, as_MemoryArena.
    cbn [buffer capacity MemoryArena.offset]. lia. }
  destruct Hlive as (Hbase & Hoff & Htop).
  rewrite (arena_allocate_eq a k n) by (try assumption; lia).
  rewrite (ArenaFacts.allocate_eq _ k Hwf Hk). cbv zeta.
  rewrite (ArenaFacts.used_no_wrap _ k Hwf Hk) by exact Hn.
  unfold as_MemoryArena. cbn [buffer capacity MemoryArena.offset].
  rewrite (round_up_shift (base a) (offset a) (2 ^ k) Hpos Haligned).
  replace (base a + round_up (offset a) (2 ^ k) - base a + n)
    with (round_up (offset a) (2 ^ k) + n) by ring.
  destruct (size a <? round_up (offset a) (2 ^ k) + n); reflexivity.
Qed.

Lemma arena_allocate_agrees_with_MemoryArena_witness :
  live (arena_init 4096 1024) /\ 0 <= 4 < 64 /\ 0 <= 32 <= PTRDIFF_MAX /\
  base (arena_init 4096 1024) mod 2 ^ 4 = 0 /\
  arena_allocate (arena_init 4096 1024) 32 (2 ^ 4) =
    match MemoryArena.allocate (as_MemoryArena (arena_init 4096 1024)) 32 (2 ^ 4)
    with
    | (Ok p, a') => (p, of_MemoryArena a')
    | (Throw _, _) => (NULL, arena_init 4096 1024)
    end.
Proof.
  assert (Hlive : live (arena_init 4096 1024)).
  { unfold live, arena_init. cbn [base size offset].
    rewrite PTRDIFF_MAX_eq. lia. }
  assert (Hk : 0 <= 4 < 64) by lia.
  assert (Hn : 0 <= 32 <= PTRDIFF_MAX) by (rewrite PTRDIFF_MAX_eq; lia).
  assert (Hal : base (arena_init 4096 1024) mod 2 ^ 4 = 0) by reflexivity.
  split; [exact Hlive | split; [exact Hk | split; [exact Hn |
    split; [exact Hal|]]]].
  exact (arena_allocate_agrees_with_MemoryArena _ 4 32 Hlive Hk Hn Hal).
Defined.

(** X20.  After [arena_destroy] the arena hands out nothing: whatever the
    size and the alignment, [arena_allocate] returns [NULL] and leaves the
    destroyed arena as it is; [arena_reset] and a second [arena_destroy]
    change nothing either. *)
Theorem destroyed_arena_allocates_nothing (a : t) (n alignment : Z) :
  arena_allocate (arena_destroy a) n alignment = (NULL, arena_destroy a) /\
  arena_reset (arena_destroy a) = arena_destroy a /\
  arena_destroy (arena_destroy a) = arena_destroy a.
Proof.
  split; [|split; reflexivity].
  assert (Hzero : align_up 0 alignment = 0).
  { unfold align_up. cbv zeta. unfold add, band, bnot.
    rewrite Z.add_0_l. unfold sub.
    rewrite (wrap_small (wrap (alignment - 1))) by apply wrap_range.
    unfold wrap at 2. rewrite modulus_eq.
    rewrite <- Z.land_ones by lia.
    rewrite Z.land_assoc, Z.land_lnot_diag. apply Z.land_0_l. }
  unfold arena_allocate, arena_destroy. cbn [base size offset]. cbv zeta.
  rewrite Hzero. unfold add. rewrite !Z.add_0_l.
  pose proof (wrap_range n) as Hn.
  destruct (Z.ltb_spec 0 (wrap n)) as [_|Hz]; [reflexivity|].
  replace (wrap n) with 0 by lia. reflexivity.
Qed.

(** X21.  [arena_init] does not check [malloc].  If [malloc] returned
    [NULL], a first request of [n1 > 0] bytes returns [NULL] and yet moves
    the cursor to [n1]; a second request that fits then returns the aligned
    offset itself, a non-null address that was never allocated. *)
Theorem failed_malloc_arena_hands_out_offsets (size n1 n2 k : Z) :
  0 <= k < 64 ->
  0 < n1 ->
  0 <= n2 ->
  round_up n1 (2 ^ k) + n2 <= size ->
  size <= PTRDIFF_MAX ->
  let r1 := arena_allocate (arena_init NULL size) n1 (2 ^ k) in
  let r2 := arena_allocate (snd r1) n2 (2 ^ k) in
  fst r1 = NULL /\
  offset (snd r1) = n1 /\
  fst r2 = round_up n1 (2 ^ k) /\
  fst r2 <> NULL.
Proof.
  intros Hk Hn1 Hn2 Hfit Hsize. cbv zeta.
  pose proof (pow2_pos k ltac:(lia)) as Hpos.
  pose proof (round_up_bounds n1 (2 ^ k) Hpos) as Hb.
  rewrite PTRDIFF_MAX_eq in Hsize.
  assert (Hzero : round_up 0 (2 ^ k) = 0)
    by (apply round_up_fixed; [exact Hpos | apply Z.mod_0_l; lia]).
  rewrite (arena_allocate_eq (arena_init NULL size) k n1);
    unfold arena_init, NULL; cbn [base CArena.size offset];
    rewrite ?PTRDIFF_MAX_eq; try lia.
  rewrite Hzero, Z.add_0_l.
  destruct (Z.ltb_spec size n1) as [|_]; [lia|]. cbn [fst snd].
  rewrite arena_allocate_eq; cbn [base CArena.size offset];
    rewrite ?PTRDIFF_MAX_eq; try lia.
  destruct (Z.ltb_spec size (round_up n1 (2 ^ k) + n2)) as [|_]; [lia|].
  cbn [fst snd]. repeat split; lia.
Qed.

Lemma failed_malloc_arena_hands_out_offsets_witness :
  0 <= 2 < 64 /\ 0 < 400 /\ 0 <= 16 /\
  round_up 400 (2 ^ 2) + 16 <= 1024 /\ 1024 <= PTRDIFF_MAX /\
  fst (arena_allocate
         (snd (arena_allocate (arena_init NULL 1024) 400 (2 ^ 2)))
         16 (2 ^ 2)) = round_up 400 (2 ^ 2).
Proof.
  assert (Hk : 0 <= 2 < 64) by lia.
  assert (H1 : 0 < 400) by lia.
  assert (H2 : 0 <= 16) by lia.
  assert (H3 : round_up 400 (2 ^ 2) + 16 <= 1024) by (vm_compute; discriminate).
  assert (H4 : 1024 <= PTRDIFF_MAX) by (rewrite PTRDIFF_MAX_eq; lia).
  split; [exact Hk | split; [exact H1 | split; [exact H2 |
    split; [exact H3 | split; [exact H4|]]]]].
  exact (proj1 (proj2 (proj2
           (failed_malloc_arena_hands_out_offsets 1024 400 16 2
              Hk H1 H2 H3 H4)))).
Defined.

End CArenaFacts.

(** ** What the allocators do not check *)

Module UncheckedFacts.
Import Mem MemFacts MemoryPool FreeList SizeTFacts FreeListFacts FreshPoolFacts.

(** X22.  [Deallocate] does not check that a block belongs to the pool: a
    non-null block lying outside the storage of a fresh pool of [n >= 1]
    blocks is accepted, and the pool then serves [n + 1] allocations, the
    foreign block first, before it throws. *)
Theorem foreign_block_is_adopted
    (sizeof_T pool : Z) (n : nat) (m0 : memory) (ptr : Z) :
  sizeof_ptr <= sizeof_T ->
  0 < pool ->
  (1 <= n)%nat ->
  pool + Z.of_nat n * sizeof_T < SizeT.modulus ->
  block_ok ptr ->
  ptr + sizeof_ptr <= pool \/ pool + Z.of_nat n * sizeof_T <= ptr ->
  let fresh := ctor sizeof_T pool (Z.of_nat n) m0 in
  let given := Deallocate (fst fresh) ptr (snd fresh) in
  fst (fst (Allocate_n (n + 2) (fst given) (snd given))) =
    Ok ptr :: map (fun i => Ok (pool + Z.of_nat i * sizeof_T)) (seq 0 n)
    ++ [Throw bad_alloc].
Proof.
  intros Hsize Hpool Hn Hfit Hptr Hout. cbv zeta.
  pose proof (ctor_chain sizeof_T pool Hsize Hpool n m0 Hn Hfit) as Hchain.
  cbv zeta in Hchain.
  pose proof (slots_ok sizeof_T pool Hsize Hpool n Hfit n 0 ltac:(lia)) as Hok.
  assert (Hclear : Forall (apart ptr)
            (map (fun j => block_at sizeof_T pool (Z.of_nat j)) (seq 0 n))).
  { apply Forall_forall. intros a Ha.
    apply in_map_iff in Ha. destruct Ha as (j & <- & Hj). apply in_seq in Hj.
    pose proof (PoolFacts.slot_mono sizeof_T pool Hsize 0 (Z.of_nat j)
                  ltac:(lia)) as Hlo.
    pose proof (PoolFacts.slot_mono sizeof_T pool Hsize (Z.of_nat j + 1)
                  (Z.of_nat n) ltac:(lia)) as Hhi.
    rewrite PoolFacts.slot_succ in Hhi.
    unfold apart, block_at, sizeof_ptr in *. lia. }
  pose proof (Deallocate_chain _ _ _ ptr Hchain Hok Hptr Hclear) as Hpush.
  destruct (Allocate_n_chain (n + 2) _ _ _ Hpush) as (Hrs & _).
  rewrite Hrs. cbn [length]. rewrite length_map, length_seq.
  replace (n + 2)%nat with (S (n + 1)) by lia. cbn [firstn map app].
  f_equal.
  rewrite firstn_all2 by (rewrite length_map, length_seq; lia).
  rewrite map_map. f_equal.
  replace (S (n + 1) - S n)%nat with 1%nat by lia. reflexivity.
Qed.

Lemma foreign_block_is_adopted_witness :
  sizeof_ptr <= 64 /\ 0 < 4096 /\ (1 <= 2)%nat /\
  4096 + Z.of_nat 2 * 64 < SizeT.modulus /\ block_ok 8192 /\
  (8192 + sizeof_ptr <= 4096 \/ 4096 + Z.of_nat 2 * 64 <= 8192) /\
  fst (fst (Allocate_n (2 + 2)
              (fst (Deallocate (fst (ctor 64 4096 (Z.of_nat 2) zeroed)) 8192
                               (snd (ctor 64 4096 (Z.of_nat 2) zeroed))))
              (snd (Deallocate (fst (ctor 64 4096 (Z.of_nat 2) zeroed)) 8192
                               (snd (ctor 64 4096 (Z.of_nat 2) zeroed))))))
  = Ok 8192 :: map (fun i => Ok (4096 + Z.of_nat i * 64)) (seq 0 2)
    ++ [Throw bad_alloc].
Proof.
  assert (H1 : sizeof_ptr <= 64) by (unfold sizeof_ptr; lia).
  assert (H2 : 0 < 4096) by lia.
  assert (H3 : (1 <= 2)%nat) by lia.
  assert (H4 : 4096 + Z.of_nat 2 * 64 < SizeT.modulus)
    by (rewrite modulus_eq; lia).
  assert (H5 : block_ok 8192) by (unfold block_ok; rewrite modulus_eq; lia).
  assert (H6 : 8192 + sizeof_ptr <= 4096 \/ 4096 + Z.of_nat 2 * 64 <= 8192)
    by (right; lia).
  split; [exact H1 | split; [exact H2 | split; [exact H3 | split; [exact H4 |
    split; [exact H5 | split; [exact H6|]]]]]].
  exact (foreign_block_is_adopted 64 4096 2 zeroed 8192 H1 H2 H3 H4 H5 H6).
Defined.

End UncheckedFacts.

(** ** MemoryArena: reset *)

Module ResetFacts.

(** X23.  [reset] forgets the whole history: after any sequence of
    [allocate] and [reset] calls on a [MemoryArena], one [reset] gives back
    the arena as [MemoryArena(size)] constructed it, so the same requests
    are then answered with the same addresses as on the fresh arena. *)
Theorem reset_returns_fresh_arena
    (addr size : Z) (cs : list MemoryArena.call) (reqs : list (Z * Z)) :
  MemoryArena.reset (MemoryArena.run (MemoryArena.ctor addr size) cs)
    = MemoryArena.ctor addr size /\
  MemoryArena.grants
    (MemoryArena.reset (MemoryArena.run (MemoryArena.ctor addr size) cs)) reqs
    = MemoryArena.grants (MemoryArena.ctor addr size) reqs.
Proof.
  assert (Hback : MemoryArena.reset
                    (MemoryArena.run (MemoryArena.ctor addr size) cs)
                  = MemoryArena.ctor addr size).
  { destruct (ArenaFacts.run_block cs (MemoryArena.ctor addr size))
      as (Hb & Hc).
    unfold MemoryArena.reset. rewrite Hb, Hc. reflexivity. }
  split; [exact Hback | now rewrite Hback].
Qed.

End ResetFacts.
